(** * Offset pagination links of the jsonapi package (resource.go)

    A shallow embedding of [OffsetPagination.GeneratePagination] and of the
    helpers it calls ([getPageParam], [replaceParam], [regexSafe],
    [appendToURL]), followed by the properties of the link calculator.

    Conventions of the embedding:
    - a Go [string] is a byte sequence: Rocq's [string] (a list of [ascii]);
    - an [int64] is a [Z] whose arithmetic wraps around explicitly ([wrap64]);
    - [float64(x)] of an [int64] is the integer it rounds to (round to nearest,
      ties to even, 53 bits of precision);
    - the receiver [p *OffsetPagination] is threaded through the call: the
      method returns the receiver it leaves behind together with its result;
    - a run-time panic (integer division by zero) is an explicit result. *)

From Stdlib Require Import ZArith Ascii String DecimalString DecimalN DecimalZ DecimalPos.
From stdpp Require Import gmap strings list fin_maps.

Local Open Scope string_scope.
Local Open Scope Z_scope.

(** ** Machine integers *)

Module Int64.

Definition min_int : Z := - 2 ^ 63.
Definition max_int : Z := 2 ^ 63 - 1.

Definition in_range (z : Z) : Prop := min_int <= z <= max_int.

(** Two's complement wrap-around of a mathematical result. *)
Definition wrap64 (z : Z) : Z := (z + 2 ^ 63) mod 2 ^ 64 - 2 ^ 63.

Definition add (a b : Z) : Z := wrap64 (a + b).
Definition sub (a b : Z) : Z := wrap64 (a - b).
Definition mul (a b : Z) : Z := wrap64 (a * b).
(** Go's [/] truncates toward zero and [%] takes the sign of the dividend;
    both panic on a zero divisor, which the callers test beforehand. *)
Definition quo (a b : Z) : Z := wrap64 (Z.quot a b).
Definition rem (a b : Z) : Z := Z.rem a b.

End Int64.

(** ** Conversions between int64 and float64 *)

(** What [int64(f)] yields when the float [f] is not representable as an
    int64. The Go specification leaves that value to the implementation
    (amd64 gives the minimum int64, arm64 saturates). *)
Class Platform := { int64_of_unrepresentable : Z }.

Definition amd64 : Platform := {| int64_of_unrepresentable := Int64.min_int |}.

Module Float64.

(** [float64(x)] for an int64 [x], as the integer value of the resulting
    float: exact up to 2^53 in magnitude, otherwise rounded to 53 significant
    bits, to nearest with ties to even. *)
Definition of_int64 (x : Z) : Z :=
  let a := Z.abs x in
  if a <? 2 ^ 53 then x
  else
    let e := Z.log2 a - 52 in
    let q := a / 2 ^ e in
    let r := a mod 2 ^ e in
    let half := 2 ^ (e - 1) in
    let q' := if r <? half then q
              else if half <? r then q + 1
              else if Z.even q then q else q + 1 in
    Z.sgn x * (q' * 2 ^ e).

(** [math.Min] and [math.Max] on floats that are neither NaN nor infinite. *)
Definition Min (x y : Z) : Z := Z.min x y.
Definition Max (x y : Z) : Z := Z.max x y.

(** [int64(f)] for an integral float [f]. *)
Definition to_int64 `{Platform} (f : Z) : Z :=
  if (Int64.min_int <=? f) && (f <=? Int64.max_int) then f
  else int64_of_unrepresentable.

(** [float64(x)] is representable as an int64 again, so that converting it
    back is defined by the language. Every int64 below 2^63 - 512 is such. *)
Definition converts_back (x : Z) : Prop := of_int64 x <= Int64.max_int.

End Float64.

(** ** Strings *)

Definition is_digit (c : ascii) : bool :=
  (48 <=? N_of_ascii c)%N && (N_of_ascii c <=? 57)%N.

Definition is_amp (c : ascii) : bool := Ascii.eqb c "&"%char.
Definition not_amp (c : ascii) : bool := negb (is_amp c).

(** [c] is another character than [k0]. *)
Definition differs (k0 : ascii) (c : ascii) : bool := negb (Ascii.eqb k0 c).

(** [strings.HasPrefix s pre]. *)
Fixpoint HasPrefix (s pre : string) : bool :=
  match pre, s with
  | EmptyString, _ => true
  | String _ _, EmptyString => false
  | String a pre', String b s' => Ascii.eqb a b && HasPrefix s' pre'
  end.

(** [strings.Contains s substr]. *)
Fixpoint Contains (s substr : string) : bool :=
  HasPrefix s substr ||
  match s with
  | EmptyString => false
  | String _ s' => Contains s' substr
  end.

(** [s[n:]], empty when [n] exceeds the length. *)
Fixpoint drop (n : nat) (s : string) : string :=
  match n, s with
  | O, _ => s
  | S _, EmptyString => EmptyString
  | S n', String _ s' => drop n' s'
  end.

(** The longest prefix of [s] whose characters satisfy [f]. *)
Fixpoint take_while (f : ascii -> bool) (s : string) : string :=
  match s with
  | EmptyString => EmptyString
  | String c s' => if f c then String c (take_while f s') else EmptyString
  end.

(** Every character of [s] satisfies [f]. *)
Fixpoint all_chars (f : ascii -> bool) (s : string) : bool :=
  match s with
  | EmptyString => true
  | String c s' => f c && all_chars f s'
  end.

Abbreviation no_amp s := (all_chars not_amp s = true).

(** A string at which a parameter value stops: the end, or an ['&']. *)
Definition stops (s : string) : Prop := s = "" \/ exists b, s = String "&" b.

(** ** strconv *)

(** [strconv.FormatInt(n, 10)]. *)
Definition FormatInt (n : Z) : string := NilZero.string_of_int (Z.to_int n).

(** [strconv.Atoi] on a non-empty run of decimal digits, with the error
    dropped as the caller does: the value, or the largest int on overflow
    ([int] is 64 bits wide). Anything else gives 0. *)
Definition Atoi (s : string) : Z :=
  match NilEmpty.uint_of_string s with
  | Some d => Z.min (Z.of_N (N.of_uint d)) Int64.max_int
  | None => 0
  end.

(** ** Regular expressions of resource.go

    The three patterns of the file are embedded by what they match:
    - the pattern of [getPageParam]: the literal key "page[<name>]=", then a
      captured, non-empty run of decimal digits;
    - the pattern of [replaceParam]: the parameter name escaped by
      [regexSafe], then '=', then a non-empty run of characters other than
      ['&'];
    - the pattern of [regexSafe]: a non-empty run of special characters. *)

(** [regexp.FindStringSubmatch] for a literal key followed by captured
    digits: the digits captured by the leftmost match, [None] when nothing
    matches. *)
Fixpoint FindDigits (key s : string) : option string :=
  match s with
  | EmptyString => None
  | String _ s' =>
      let ds := take_while is_digit (drop (String.length key) s) in
      if HasPrefix s key && negb (String.eqb ds "") then Some ds
      else FindDigits key s'
  end.

(** Length of the match of [<key>[^&]+] at the start of [s], if any. *)
Definition match_value (key s : string) : option nat :=
  let v := take_while not_amp (drop (String.length key) s) in
  if HasPrefix s key && negb (String.eqb v "") then
    Some (String.length key + String.length v)%nat
  else None.

(** [regexp.ReplaceAllString] for [<key>[^&]+]: scanning from the left, each
    match is replaced by [repl] and the scan resumes after it; [skip] counts
    the characters of the current match still to be passed over. ([repl] is a
    replacement template; the ones built here hold no ['$'].) *)
Fixpoint ReplaceAll (key repl : string) (skip : nat) (s : string) : string :=
  match s with
  | EmptyString => EmptyString
  | String c s' =>
      match skip with
      | S k => ReplaceAll key repl k s'
      | O =>
          match match_value key s with
          | Some (S k) => repl +:+ ReplaceAll key repl k s'
          | _ => String c (ReplaceAll key repl 0 s')
          end
      end
  end.

Definition special_char (c : ascii) : bool :=
  existsb (Ascii.eqb c) ["]"; "^"; "["; "."; "("; ")"; "-"]%char.

(** The backslash that [regexSafe] puts before a special character. *)
Definition backslash : ascii := ascii_of_nat 92.

(** [regexSafe]: every maximal run of characters of its class becomes a
    backslash followed by the last character of the run (the group [$1] keeps
    its last repetition). The class is built from the list of [special_char]
    and a backslash; joined inside the brackets, that backslash escapes the
    bracket after it and so is not itself a member of the class. *)
Fixpoint regexSafe (inp : string) : string :=
  match inp with
  | EmptyString => EmptyString
  | String c rest =>
      if special_char c then
        match rest with
        | String c' _ =>
            if special_char c' then regexSafe rest
            else String backslash (String c (regexSafe rest))
        | EmptyString => String backslash (String c EmptyString)
        end
      else String c (regexSafe rest)
  end.

(** [getPageParam(name, url)]. *)
Definition getPageParam (name url : string) : Z :=
  let val := 0 in
  let val :=
    match FindDigits ("page[" +:+ name +:+ "]=") url with
    | Some ql => Atoi ql
    | None => val
    end in
  val.

(** [replaceParam(&url, param, value)], as the new content of [url]. The
    pattern is [regexSafe(param) ++ "=[^&]+"]; for the two parameter names
    passed in this file [regexSafe] escapes both brackets (see
    [regexSafe_page_limit] and [regexSafe_page_offset]), so the pattern matches
    the literal [param ++ "="] followed by its value. *)
Definition replaceParam (url param value : string) : string :=
  let newParam := param +:+ "=" +:+ value in
  ReplaceAll (param +:+ "=") newParam 0 url.

(** ** The pagination request and its links *)

Record OffsetPagination := mkOffsetPagination {
  URL : string;
  Limit : Z;
  Total : Z
}.

Definition set_URL (p : OffsetPagination) (u : string) : OffsetPagination :=
  {| URL := u; Limit := Limit p; Total := Total p |}.

(** [Links] is [map[string]interface{}]; the calculator stores URL strings. *)
Abbreviation Links := (gmap string string).

(** Modelled from the spec: the constants [KeyFirstPage], [KeyPreviousPage],
    [KeyNextPage] and [KeyLastPage] are declared outside resource.go; the
    specification names the four keys first, previous, next and last. *)
Definition KeyFirstPage : string := "first".
Definition KeyPreviousPage : string := "previous".
Definition KeyNextPage : string := "next".
Definition KeyLastPage : string := "last".

(** Outcome of a call: a returned value or a run-time panic. *)
Inductive result (A : Type) : Type :=
  | Returns (a : A)
  | Panics.
Arguments Returns {A} a.
Arguments Panics {A}.

(** [p.appendToURL(param)], as the receiver it leaves. *)
Definition appendToURL (p : OffsetPagination) (param : string) : OffsetPagination :=
  if negb (Contains (URL p) "?") then set_URL p (URL p +:+ "?" +:+ param)
  else set_URL p (URL p +:+ "&" +:+ param).

Section Calculator.
Context `{Platform}.

(** [p.GeneratePagination()]: the result ([None] is the nil pointer) and the
    receiver after the call. *)
Definition GeneratePagination (p : OffsetPagination)
  : result (option Links) * OffsetPagination :=
  if Total p <? Limit p then (Returns None, p)
  else
    let p := if negb (Contains (URL p) "page[limit]")
             then appendToURL p ("page[limit]=" +:+ FormatInt (Limit p)) else p in
    let p := if negb (Contains (URL p) "page[offset]")
             then appendToURL p "page[offset]=0" else p in
    let links : Links := ∅ in
    let limit := Float64.to_int64
                   (Float64.Min (Float64.of_int64 (getPageParam "Limit" (URL p)))
                                (Float64.of_int64 (Limit p))) in
    let limit := if limit =? 0 then Limit p else limit in
    let offset := Float64.to_int64
                    (Float64.Max (Float64.of_int64 (getPageParam "offset" (URL p)))
                                 (Float64.of_int64 0)) in
    let links :=
      if 0 <? offset then
        let firstUrl := URL p in
        let firstUrl := replaceParam firstUrl "page[limit]" (FormatInt limit) in
        let firstUrl := replaceParam firstUrl "page[offset]" (FormatInt 0) in
        <[KeyFirstPage := firstUrl]> links
      else links in
    let links :=
      if limit <? offset then
        let prevUrl := URL p in
        let prevUrl := replaceParam prevUrl "page[limit]" (FormatInt limit) in
        let prevOffset := Int64.sub offset limit in
        let prevUrl := replaceParam prevUrl "page[offset]" (FormatInt prevOffset) in
        <[KeyPreviousPage := prevUrl]> links
      else links in
    let links :=
      if Int64.add offset limit <? Int64.sub (Total p) limit then
        let nextUrl := URL p in
        let nextUrl := replaceParam nextUrl "page[limit]" (FormatInt limit) in
        let nextOffset := Int64.add offset limit in
        let nextUrl := replaceParam nextUrl "page[offset]" (FormatInt nextOffset) in
        <[KeyNextPage := nextUrl]> links
      else links in
    if Int64.add offset limit <? Total p then
      let lastUrl := URL p in
      let lastUrl := replaceParam lastUrl "page[limit]" (FormatInt limit) in
      if limit =? 0 then (Panics, p)
      else
        let pages := Int64.quo (Total p) limit in
        let pages := if 0 <? Int64.rem (Total p) limit
                     then Int64.add pages 1 else pages in
        let lastOffset := Int64.mul (Int64.sub pages 1) limit in
        let offsetShift := Int64.rem offset limit in
        let lastOffset := Int64.add lastOffset offsetShift in
        let lastOffset := if Total p <? lastOffset
                          then Int64.sub lastOffset limit else lastOffset in
        let lastUrl := replaceParam lastUrl "page[offset]" (FormatInt lastOffset) in
        (Returns (Some (<[KeyLastPage := lastUrl]> links)), p)
    else (Returns (Some links), p).

End Calculator.

(** ** The calculator in the specification's vocabulary

    The working URL, the effective limit and offset, the rewrite of one link
    and the target offsets, each read off the body of [GeneratePagination]. *)

Section Vocabulary.
Context `{Platform}.

(** The receiver after the two conditional appends. *)
Definition normalized (p : OffsetPagination) : OffsetPagination :=
  let p := if negb (Contains (URL p) "page[limit]")
           then appendToURL p ("page[limit]=" +:+ FormatInt (Limit p)) else p in
  if negb (Contains (URL p) "page[offset]")
  then appendToURL p "page[offset]=0" else p.

Definition workingURL (p : OffsetPagination) : string := URL (normalized p).

Definition extractedLimit (p : OffsetPagination) : Z :=
  getPageParam "Limit" (workingURL p).

Definition extractedOffset (p : OffsetPagination) : Z :=
  getPageParam "offset" (workingURL p).

Definition effectiveLimit (p : OffsetPagination) : Z :=
  let limit := Float64.to_int64
                 (Float64.Min (Float64.of_int64 (extractedLimit p))
                              (Float64.of_int64 (Limit p))) in
  if limit =? 0 then Limit p else limit.

Definition effectiveOffset (p : OffsetPagination) : Z :=
  Float64.to_int64
    (Float64.Max (Float64.of_int64 (extractedOffset p)) (Float64.of_int64 0)).

(** One emitted link: a copy of the working URL with both values rewritten. *)
Definition rewriteURL (w : string) (limit offset : Z) : string :=
  replaceParam (replaceParam w "page[limit]" (FormatInt limit))
               "page[offset]" (FormatInt offset).

(** The offset written into the [last] link (lines 209 to 218). *)
Definition lastPageOffset (total limit offset : Z) : Z :=
  let pages := Int64.quo total limit in
  let pages := if 0 <? Int64.rem total limit then Int64.add pages 1 else pages in
  let lastOffset := Int64.mul (Int64.sub pages 1) limit in
  let lastOffset := Int64.add lastOffset (Int64.rem offset limit) in
  if total <? lastOffset then Int64.sub lastOffset limit else lastOffset.

(** Target offset of the link named [k], when that link is emitted. *)
Definition targetOffset (total limit offset : Z) (k : string) : option Z :=
  if decide (k = KeyFirstPage) then
    if 0 <? offset then Some 0 else None
  else if decide (k = KeyPreviousPage) then
    if limit <? offset then Some (Int64.sub offset limit) else None
  else if decide (k = KeyNextPage) then
    if Int64.add offset limit <? Int64.sub total limit
    then Some (Int64.add offset limit) else None
  else if decide (k = KeyLastPage) then
    if Int64.add offset limit <? total
    then Some (lastPageOffset total limit offset) else None
  else None.

(** The link set assembled by the four blocks of the method. *)
Definition linkSet (w : string) (total limit offset : Z) : Links :=
  let links : Links := ∅ in
  let links := if 0 <? offset
               then <[KeyFirstPage := rewriteURL w limit 0]> links else links in
  let links := if limit <? offset
               then <[KeyPreviousPage := rewriteURL w limit (Int64.sub offset limit)]> links
               else links in
  let links := if Int64.add offset limit <? Int64.sub total limit
               then <[KeyNextPage := rewriteURL w limit (Int64.add offset limit)]> links
               else links in
  if Int64.add offset limit <? total
  then <[KeyLastPage := rewriteURL w limit (lastPageOffset total limit offset)]> links
  else links.

(** The division of the [last] block is reached with a zero divisor. *)
Definition dividesByZero (p : OffsetPagination) : bool :=
  (Int64.add (effectiveOffset p) (effectiveLimit p) <? Total p)
  && (effectiveLimit p =? 0).

End Vocabulary.

(** ** Definitions in the words of the specification *)

(** ceil(a / b) for a positive [b]. *)
Definition ceil_div (a b : Z) : Z := (a + b - 1) / b.

(** The last-page offset as the specification derives it, over the
    mathematical integers: pages = ceil(total / limit), then
    (pages - 1) * limit plus the alignment shift offset mod limit, less one
    limit if that exceeds the total. *)
Definition specLastOffset (total limit offset : Z) : Z :=
  let pages := ceil_div total limit in
  let lastOffset := (pages - 1) * limit + offset mod limit in
  if total <? lastOffset then lastOffset - limit else lastOffset.

(** The append of Step 2: a new query parameter, introduced by ['?'] when
    the URL has no query string yet and by ['&'] otherwise. *)
Definition specAppend (url param : string) : string :=
  if Contains url "?" then url +:+ "&" +:+ param else url +:+ "?" +:+ param.

(** The working URL of Step 2: both containment checks look at the input
    URL, the limit parameter is appended first. *)
Definition specWorkingURL (url : string) (limit : Z) : string :=
  let u := if Contains url "page[limit]" then url
           else specAppend url ("page[limit]=" +:+ FormatInt limit) in
  if Contains url "page[offset]" then u
  else specAppend u "page[offset]=0".

(** The ['&']-separated segments of a URL, in order: the first holds the
    path and the first query parameter, each later one a parameter. *)
Fixpoint split_amp (s : string) : list string :=
  match s with
  | EmptyString => [EmptyString]
  | String c s' =>
      if is_amp c then EmptyString :: split_amp s'
      else match split_amp s' with
           | seg :: rest => String c seg :: rest
           | [] => [String c EmptyString]
           end
  end.

(** The value-only substitution of Step 4 inside one segment: at the first
    place where [key] (a name and its ['=']) is followed by at least one more
    character, everything from there to the end of the segment becomes [repl]
    (the key followed by the new value). *)
Fixpoint segReplace (key repl seg : string) : string :=
  match seg with
  | EmptyString => EmptyString
  | String c seg' =>
      if HasPrefix seg key && (String.length key <? String.length seg)%nat
      then repl
      else String c (segReplace key repl seg')
  end.

(** The text of [s] after its first ['?'], if any. *)
Fixpoint afterQuestion (s : string) : option string :=
  match s with
  | EmptyString => None
  | String c s' => if Ascii.eqb c "?" then Some s' else afterQuestion s'
  end.

(** The query parameters of a URL, in order, and the name of a parameter:
    the query string is what follows the first ['?'], parameters are joined
    with ['&'], a name ends at the first ['=']. *)
Definition queryParams (url : string) : list string :=
  match afterQuestion url with
  | Some qs => split_amp qs
  | None => []
  end.

Definition paramName (param : string) : string :=
  take_while (fun c => negb (Ascii.eqb c "=")) param.

(** A segment carries a value for [key] (a parameter name and its ['=']):
    the key is followed in it by at least one more character, the text that
    the value-only substitution of Step 4 replaces. *)
Fixpoint hasValue (key seg : string) : bool :=
  match seg with
  | EmptyString => false
  | String _ seg' =>
      (HasPrefix seg key && (String.length key <? String.length seg)%nat)
      || hasValue key seg'
  end.

(** The URL has an ['&']-separated segment that carries a value for [key]. *)
Definition hasParam (key url : string) : bool :=
  existsb (hasValue key) (split_amp url).

(** No segment of the URL holds both [key1] and [key2]: the two parameters
    are separated by an ['&']. *)
Definition apart (key1 key2 url : string) : bool :=
  forallb (fun seg => negb (Contains seg key1 && Contains seg key2))
          (split_amp url).

(** ** Escapes of the pattern language *)

(** No special character is directly followed by another one. *)
Fixpoint specials_apart (s : string) : bool :=
  match s with
  | EmptyString => true
  | String c rest =>
      match rest with
      | EmptyString => true
      | String c' _ => negb (special_char c && special_char c') && specials_apart rest
      end
  end.

(** [c] is neither of the two characters that join query parameters. *)
Definition not_separator (c : ascii) : bool :=
  negb (Ascii.eqb c "?") && negb (Ascii.eqb c "&").

(** [c] is a letter or a digit. Such a character stands for itself in a
    pattern and in a replacement template, so a name or a value made of them
    is taken literally by [getPageParam] and [replaceParam]. *)
Definition is_alnum (c : ascii) : bool :=
  let n := N_of_ascii c in
  is_digit c || ((65 <=? n) && (n <=? 90))%N || ((97 <=? n) && (n <=? 122))%N.

(** The characters that are operators of the pattern language of Go's regexp
    package when they are not escaped. *)
Definition meta_char (c : ascii) : bool :=
  Ascii.eqb c backslash ||
  existsb (Ascii.eqb c)
    ["."; "+"; "*"; "?"; "("; ")"; "|"; "["; "]"; "{"; "}"; "^"; "$"]%char.

Definition is_ascii (c : ascii) : bool := (N_of_ascii c <? 128)%N.

(** The text of a literal pattern: [Some t] when the pattern is made only of
    ASCII characters that stand for themselves and of backslash escapes of
    ASCII punctuation, and then matches exactly the text [t]; [None] for any
    other pattern (an operator, a class, or a backslash before a letter or a
    digit, which is a class, an assertion or an error). *)
Fixpoint literalText (pat : string) : option string :=
  match pat with
  | EmptyString => Some EmptyString
  | String c rest =>
      if Ascii.eqb c backslash then
        match rest with
        | EmptyString => None
        | String c' rest' =>
            if is_alnum c' || negb (is_ascii c') then None
            else String c' <$> literalText rest'
        end
      else if meta_char c || negb (is_ascii c) then None
      else String c <$> literalText rest
  end.

(** ** Links objects, payloads and paginators *)

Section LinksObject.
Variables (Meta Other ResourceObj : Type).

(** [Link]: a link object with its href and meta. *)
Record Link := mkLink { Href : string; LinkMeta : Meta }.

(** A member of a links object ([interface{}]) by its dynamic type: a string,
    a [Link], or a value of any other type. *)
Inductive member :=
  | MString (s : string)
  | MLink (l : Link)
  | MOther (v : Other).

(** The two type assertions of [validate]. *)
Definition isString (v : member) : bool :=
  match v with MString _ => true | _ => false end.

Definition isLink (v : member) : bool :=
  match v with MLink _ => true | _ => false end.

(** The error of [validate] for the member named [k]. *)
Definition memberError (k : string) : string :=
  "The " +:+ k +:+ " member of the links object was not a string or link object".

(** [(l *Links).validate()] for a non-nil receiver, over the entries of the
    map in the order in which [range] yields them: [None] is the nil error. *)
Fixpoint validate (entries : list (string * member)) : option string :=
  match entries with
  | [] => None
  | (k, v) :: rest =>
      if negb (isString v || isLink v) then Some (memberError k)
      else validate rest
  end.

(** [range] yields every entry of the map once, in an unspecified order. *)
Definition rangeOrder (l : gmap string member)
    (entries : list (string * member)) : Prop :=
  entries ≡ₚ map_to_list l.

(** [ManyPayload] and [OnePayload]; a nil pointer is [None]. *)
Record ManyPayload := mkManyPayload {
  ManyData : list ResourceObj;
  ManyIncluded : list ResourceObj;
  ManyLinks : option (gmap string member);
  ManyMeta : option Meta
}.

Record OnePayload := mkOnePayload {
  OneData : option ResourceObj;
  OneIncluded : list ResourceObj;
  OneLinks : option (gmap string member);
  OneMeta : option Meta
}.

(** [Paginator]: the interface with the one method [GeneratePagination], which
    may change its receiver. *)
Class Paginator (P : Type) := {
  paginate : P -> result (option Links) * P
}.

(** A link set of URL strings as a links object. *)
Definition asMembers (l : Links) : gmap string member := MString <$> l.

(** [(p *ManyPayload).AddPagination(paginator)]: the payload and the paginator
    after the call; when the paginator panics nothing is assigned. *)
Definition ManyAddPagination {P} `{Paginator P} (p : ManyPayload) (paginator : P)
  : result ManyPayload * P :=
  match paginate paginator with
  | (Returns links, paginator') =>
      (Returns {| ManyData := ManyData p;
                  ManyIncluded := ManyIncluded p;
                  ManyLinks := asMembers <$> links;
                  ManyMeta := ManyMeta p |},
       paginator')
  | (Panics, paginator') => (Panics, paginator')
  end.

(** [(p *OnePayload).AddPagination(paginator)]: the body is empty. *)
Definition OneAddPagination {P} `{Paginator P} (p : OnePayload) (paginator : P)
  : result OnePayload * P :=
  (Returns p, paginator).

End LinksObject.

Arguments MString {Meta Other} s.
Arguments MLink {Meta Other} l.
Arguments MOther {Meta Other} v.
Arguments isString {Meta Other} v.
Arguments isLink {Meta Other} v.
Arguments validate {Meta Other} entries.
Arguments rangeOrder {Meta Other} l entries.
Arguments asMembers {Meta Other} l.
Arguments ManyAddPagination {Meta Other ResourceObj P _} p paginator.
Arguments OneAddPagination {Meta Other ResourceObj P _} p paginator.
Arguments mkManyPayload {Meta Other ResourceObj} _ _ _ _.
Arguments ManyData {Meta Other ResourceObj} _.
Arguments ManyIncluded {Meta Other ResourceObj} _.
Arguments ManyLinks {Meta Other ResourceObj} _.
Arguments ManyMeta {Meta Other ResourceObj} _.

(** [*OffsetPagination] implements [Paginator]. *)
#[local] Instance OffsetPagination_Paginator `{Platform} : Paginator OffsetPagination :=
  {| paginate := GeneratePagination |}.

(** ** Requests used as instances

    The first four are cases of TestOffsetPagination_GeneratePagination. *)

Definition midRange : OffsetPagination :=
  mkOffsetPagination "/?page[limit]=111&page[offset]=111" 100 334.


Definition otherParams : OffsetPagination :=
  mkOffsetPagination
    "/?page[sort]=-1&page[limit]=111&aparam=2&page[offset]=111&lastparam=owt"
    100 334.

Definition nonNumeric : OffsetPagination :=
  mkOffsetPagination "/?page[limit]=abc&page[offset]=def" 100 334.

Definition onePage : OffsetPagination := mkOffsetPagination "/?q=1" 100 5.

Definition noParams : OffsetPagination := mkOffsetPagination "/" 100 334.

Definition exactlyOnePage : OffsetPagination := mkOffsetPagination "/" 100 100.

Definition emptyValues : OffsetPagination :=
  mkOffsetPagination "/?page[limit]=&page[offset]=" 100 334.

Definition lookalikeParam : OffsetPagination :=
  mkOffsetPagination "/?xpage[limit]=7&page[limit]=111&page[offset]=0" 100 334.

Definition alignedWithTotal : OffsetPagination :=
  mkOffsetPagination "/?page[limit]=111&page[offset]=34" 100 334.

Definition nearTheEnd : OffsetPagination :=
  mkOffsetPagination "/?page[limit]=100&page[offset]=200" 100 334.

Definition hugeOffset : OffsetPagination :=
  mkOffsetPagination "/?page[offset]=9223372036854775807" 0 0.

Definition capitalLimit : OffsetPagination :=
  mkOffsetPagination "/?page[Limit]=50&page[offset]=0" 100 334.

Definition joinedParams : OffsetPagination :=
  mkOffsetPagination "/?page[limit]=5page[offset]=7" 100 334.

Definition swallowedLimit : OffsetPagination :=
  mkOffsetPagination "/?page[limit]=apage[Limit]=50&page[offset]=0" 100 334.

Definition capitalInOffset : OffsetPagination :=
  mkOffsetPagination "/?page[offset]=5page[Limit]=50" 100 334.

Definition pastExact : OffsetPagination :=
  mkOffsetPagination "/?page[limit]=1&page[offset]=9007199254740992"
    1 18014398509481984.

(** * Properties *)

(** ** Strings *)

Lemma app_cons c (s t : string) : String c s +:+ t = String c (s +:+ t).
Proof. reflexivity. Qed.

Lemma app_single c (s : string) : String c "" +:+ s = String c s.
Proof. reflexivity. Qed.

Lemma app_empty_l (s : string) : "" +:+ s = s.
Proof. reflexivity. Qed.

Lemma app_empty_r (s : string) : s +:+ "" = s.
Proof. induction s as [|c s IH]; [reflexivity|]. rewrite app_cons, IH. reflexivity. Qed.

Lemma app_assoc_s (s t u : string) : (s +:+ t) +:+ u = s +:+ (t +:+ u).
Proof.
  induction s as [|c s IH]; [reflexivity|]. rewrite !app_cons, IH. reflexivity.
Qed.

Lemma length_app_s (s t : string) :
  String.length (s +:+ t) = (String.length s + String.length t)%nat.
Proof.
  induction s as [|c s IH]; [reflexivity|]. rewrite app_cons. cbn. rewrite IH. reflexivity.
Qed.

Lemma all_chars_app f (s t : string) :
  all_chars f (s +:+ t) = all_chars f s && all_chars f t.
Proof.
  induction s as [|c s IH]; [reflexivity|].
  rewrite app_cons. cbn. rewrite IH. apply andb_assoc.
Qed.

Lemma all_chars_impl (f g : ascii -> bool) s :
  (forall c, f c = true -> g c = true) ->
  all_chars f s = true -> all_chars g s = true.
Proof.
  intros Hfg. induction s as [|c s IH]; [reflexivity|]. cbn.
  intros [Hc Hs]%andb_true_iff. rewrite (Hfg c Hc), (IH Hs). reflexivity.
Qed.

Lemma HasPrefix_empty s : HasPrefix s "" = true.
Proof. destruct s; reflexivity. Qed.

Lemma HasPrefix_cons s k0 k :
  HasPrefix s (String k0 k) =
  match s with
  | EmptyString => false
  | String c s' => Ascii.eqb k0 c && HasPrefix s' k
  end.
Proof. destruct s; reflexivity. Qed.

Lemma Contains_cons c s k :
  Contains (String c s) k = HasPrefix (String c s) k || Contains s k.
Proof. reflexivity. Qed.

(** A key is not found in a string that lacks the key's first character. *)
Lemma Contains_without_first s k0 k :
  all_chars (fun c => negb (Ascii.eqb k0 c)) s = true ->
  Contains s (String k0 k) = false.
Proof.
  induction s as [|c s IH]; [reflexivity|].
  cbn [all_chars]. intros [Hc Hs]%andb_true_iff.
  rewrite Contains_cons, HasPrefix_cons, (IH Hs).
  destruct (Ascii.eqb k0 c); [discriminate | reflexivity].
Qed.

(** A separator that does not occur in the key splits the search. *)
Lemma HasPrefix_app_sep a c b k :
  all_chars (fun x => negb (Ascii.eqb x c)) k = true ->
  HasPrefix (a +:+ String c b) k = HasPrefix a k.
Proof.
  revert k. induction a as [|x a IH]; intros [|k0 k] Hk; try reflexivity.
  - cbn in Hk. apply andb_true_iff in Hk as [Hk0 _].
    rewrite app_empty_l, HasPrefix_cons. cbn.
    destruct (Ascii.eqb k0 c); [discriminate | reflexivity].
  - cbn in Hk. apply andb_true_iff in Hk as [_ Hk].
    rewrite app_cons, !HasPrefix_cons, (IH _ Hk). reflexivity.
Qed.

Lemma Contains_app_sep a c b k0 k :
  all_chars (fun x => negb (Ascii.eqb x c)) (String k0 k) = true ->
  Contains (a +:+ String c b) (String k0 k) =
  Contains a (String k0 k) || Contains b (String k0 k).
Proof.
  intros Hk. induction a as [|x a IH].
  - rewrite app_empty_l, Contains_cons, HasPrefix_cons.
    cbn in Hk. apply andb_true_iff in Hk as [Hk0 _].
    destruct (Ascii.eqb k0 c); [discriminate | reflexivity].
  - rewrite app_cons, !Contains_cons, IH, <- app_cons, (HasPrefix_app_sep _ _ _ _ Hk).
    apply orb_assoc.
Qed.

(** ** Escaping of the two parameter names *)

Lemma regexSafe_page_limit :
  regexSafe "page[limit]" =
  "page" +:+ String backslash "[limit" +:+ String backslash "]".
Proof. reflexivity. Qed.

Lemma regexSafe_page_offset :
  regexSafe "page[offset]" =
  "page" +:+ String backslash "[offset" +:+ String backslash "]".
Proof. reflexivity. Qed.

(** ** Matching and replacing *)

Lemma drop_0 s : drop 0 s = s.
Proof. destruct s; reflexivity. Qed.

Lemma drop_app_length (x y : string) : drop (String.length x) (x +:+ y) = y.
Proof. induction x as [|c x IH]; [apply drop_0|]. rewrite app_cons. exact IH. Qed.

Lemma HasPrefix_app (pre s : string) : HasPrefix (pre +:+ s) pre = true.
Proof.
  induction pre as [|c pre IH]; [apply HasPrefix_empty|].
  rewrite app_cons, HasPrefix_cons, Ascii.eqb_refl. exact IH.
Qed.

Lemma HasPrefix_split s pre :
  HasPrefix s pre = true -> s = pre +:+ drop (String.length pre) s.
Proof.
  revert s. induction pre as [|c pre IH]; intros s Hp.
  - rewrite app_empty_l, drop_0. reflexivity.
  - rewrite HasPrefix_cons in Hp. destruct s as [|x s]; [discriminate|].
    apply andb_true_iff in Hp as [Hc Hp]. apply Ascii.eqb_eq in Hc as ->.
    rewrite app_cons. cbn [String.length drop]. f_equal. apply IH, Hp.
Qed.

Lemma HasPrefix_stops a rest k :
  no_amp k -> stops rest -> HasPrefix (a +:+ rest) k = HasPrefix a k.
Proof.
  intros Hk [->|[b ->]]; [rewrite app_empty_r; reflexivity|].
  apply HasPrefix_app_sep.
  eapply all_chars_impl; [|exact Hk]. intros c. unfold not_amp, is_amp. tauto.
Qed.

Lemma take_while_stops a rest :
  no_amp a -> stops rest -> take_while not_amp (a +:+ rest) = a.
Proof.
  intros Ha Hr. induction a as [|c a IH].
  - rewrite app_empty_l. destruct Hr as [->|[b ->]]; reflexivity.
  - cbn in Ha. apply andb_true_iff in Ha as [Hc Ha].
    rewrite app_cons. cbn. rewrite Hc, (IH Ha). reflexivity.
Qed.

Lemma eqb_empty (s : string) : String.eqb s "" = (String.length s =? 0)%nat.
Proof. destruct s; reflexivity. Qed.

Lemma match_value_unfold key s :
  match_value key s =
  let v := take_while not_amp (drop (String.length key) s) in
  if HasPrefix s key && negb (String.eqb v "")
  then Some (String.length key + String.length v)%nat else None.
Proof. reflexivity. Qed.

(** Within one segment the pattern matches from the key to the segment's end. *)
Lemma match_value_segment key a rest :
  no_amp key -> no_amp a -> stops rest ->
  match_value key (a +:+ rest) =
  if HasPrefix a key && (String.length key <? String.length a)%nat
  then Some (String.length a) else None.
Proof.
  intros Hk Ha Hr. rewrite match_value_unfold. cbn zeta.
  rewrite (HasPrefix_stops _ _ _ Hk Hr).
  destruct (HasPrefix a key) eqn:Hp; [|reflexivity]. cbn [andb].
  apply HasPrefix_split in Hp. set (a2 := drop (String.length key) a) in *.
  clearbody a2. subst a. rewrite app_assoc_s, drop_app_length, length_app_s.
  rewrite all_chars_app in Ha. apply andb_true_iff in Ha as [_ Ha2].
  rewrite (take_while_stops _ _ Ha2 Hr), eqb_empty.
  destruct a2; cbn [String.length].
  - rewrite Nat.add_0_r, Nat.ltb_irrefl. reflexivity.
  - destruct (Nat.ltb_spec (String.length key) (String.length key + S (String.length a2))); [reflexivity | lia].
Qed.

Section Replace.
Variables (key repl : string).

Lemma ReplaceAll_skip k s :
  ReplaceAll key repl k s = ReplaceAll key repl 0 (drop k s).
Proof.
  revert k. induction s as [|c s IH]; intros [|k]; try reflexivity.
  cbn [ReplaceAll drop]. apply IH.
Qed.

Lemma ReplaceAll_match c s k :
  match_value key (String c s) = Some (S k) ->
  ReplaceAll key repl 0 (String c s) = repl +:+ ReplaceAll key repl 0 (drop k s).
Proof. intros Hm. cbn [ReplaceAll]. rewrite Hm, ReplaceAll_skip. reflexivity. Qed.

Lemma ReplaceAll_no_match c s :
  match_value key (String c s) = None ->
  ReplaceAll key repl 0 (String c s) = String c (ReplaceAll key repl 0 s).
Proof. intros Hm. cbn [ReplaceAll]. rewrite Hm. reflexivity. Qed.

Hypothesis key_no_amp : no_amp key.

Lemma ReplaceAll_segment a rest :
  no_amp a -> stops rest ->
  ReplaceAll key repl 0 (a +:+ rest) =
  segReplace key repl a +:+ ReplaceAll key repl 0 rest.
Proof.
  intros Ha Hr. induction a as [|c a IH]; [reflexivity|].
  pose proof (match_value_segment key (String c a) rest key_no_amp Ha Hr) as Hm.
  cbn [segReplace].
  destruct (HasPrefix (String c a) key && (String.length key <? String.length (String c a))%nat).
  - rewrite app_cons in *. cbn [String.length] in Hm.
    rewrite (ReplaceAll_match _ _ _ Hm), drop_app_length. reflexivity.
  - rewrite app_cons in *. rewrite (ReplaceAll_no_match _ _ Hm).
    cbn in Ha. apply andb_true_iff in Ha as [_ Ha].
    rewrite (IH Ha). reflexivity.
Qed.

End Replace.

(** ** Segments *)

Lemma split_amp_nonempty s : split_amp s <> [].
Proof.
  destruct s as [|c s]; [discriminate|]. cbn.
  destruct (is_amp c); [discriminate|]. destruct (split_amp s); discriminate.
Qed.

Lemma split_amp_cons_not_amp c s :
  is_amp c = false ->
  exists seg rest, split_amp s = seg :: rest /\
                   split_amp (String c s) = String c seg :: rest.
Proof.
  intros Hc. cbn. rewrite Hc.
  destruct (split_amp s) as [|seg rest] eqn:E; [destruct (split_amp_nonempty _ E)|].
  eauto.
Qed.

Lemma split_amp_amp s : split_amp (String "&" s) = "" :: split_amp s.
Proof. reflexivity. Qed.

Lemma concat_cons2 (x y : string) l :
  String.concat "&" (x :: y :: l) = x +:+ String "&" (String.concat "&" (y :: l)).
Proof. reflexivity. Qed.

Lemma concat_split s : String.concat "&" (split_amp s) = s.
Proof.
  induction s as [|c s IH]; [reflexivity|].
  destruct (is_amp c) eqn:Hc.
  - cbn [split_amp]. rewrite Hc.
    apply Ascii.eqb_eq in Hc as ->.
    destruct (split_amp s) as [|y l] eqn:E; [destruct (split_amp_nonempty _ E)|].
    rewrite concat_cons2, IH. reflexivity.
  - destruct (split_amp_cons_not_amp c s Hc) as (seg & rest & E & ->).
    rewrite E in IH. destruct rest as [|y l].
    + cbn in *. congruence.
    + rewrite concat_cons2 in *. rewrite app_cons. congruence.
Qed.

Lemma split_amp_no_amp s : Forall (fun seg => no_amp seg) (split_amp s).
Proof.
  induction s as [|c s IH]; [repeat constructor|].
  destruct (is_amp c) eqn:Hc.
  - cbn [split_amp]. rewrite Hc. constructor; [reflexivity | exact IH].
  - destruct (split_amp_cons_not_amp c s Hc) as (seg & rest & E & ->).
    rewrite E in IH. inversion IH; subst. constructor; [|assumption].
    cbn. unfold not_amp at 1. rewrite Hc. assumption.
Qed.

Lemma split_amp_segment a rest :
  no_amp a ->
  split_amp (a +:+ String "&" rest) = a :: split_amp rest.
Proof.
  intros Ha. induction a as [|c a IH]; [reflexivity|].
  cbn in Ha. apply andb_true_iff in Ha as [Hc Ha].
  rewrite app_cons. cbn [split_amp].
  unfold not_amp in Hc. apply negb_true_iff in Hc. rewrite Hc, (IH Ha). reflexivity.
Qed.

Lemma split_amp_single a : no_amp a -> split_amp a = [a].
Proof.
  intros Ha. induction a as [|c a IH]; [reflexivity|].
  cbn in Ha. apply andb_true_iff in Ha as [Hc Ha].
  cbn [split_amp].
  unfold not_amp in Hc. apply negb_true_iff in Hc. rewrite Hc, (IH Ha). reflexivity.
Qed.

Lemma split_concat l :
  l <> [] -> Forall (fun seg => no_amp seg) l ->
  split_amp (String.concat "&" l) = l.
Proof.
  induction l as [|x [|y l] IH]; intros Hne Hall; [congruence | |].
  - inversion Hall; subst. apply split_amp_single. assumption.
  - inversion Hall; subst. rewrite concat_cons2, split_amp_segment by assumption.
    rewrite IH; [reflexivity | discriminate | assumption].
Qed.

Lemma segReplace_no_amp key repl seg :
  no_amp repl -> no_amp seg -> no_amp (segReplace key repl seg).
Proof.
  intros Hr. induction seg as [|c seg IH]; intros Hs; [reflexivity|].
  cbn [segReplace]. destruct (_ && _); [assumption|].
  cbn in *. apply andb_true_iff in Hs as [Hc Hs]. rewrite Hc, (IH Hs). reflexivity.
Qed.

Lemma segReplace_without key repl seg :
  Contains seg key = false -> segReplace key repl seg = seg.
Proof.
  induction seg as [|c seg IH]; [reflexivity|].
  rewrite Contains_cons. intros [Hp Hc]%orb_false_iff.
  cbn [segReplace]. rewrite Hp, (IH Hc). reflexivity.
Qed.

Section Segments.
Variables (key repl : string).
Hypothesis key_nonempty : key <> "".
Hypothesis key_no_amp : no_amp key.
Hypothesis repl_no_amp : no_amp repl.

Lemma ReplaceAll_amp b :
  ReplaceAll key repl 0 (String "&" b) = String "&" (ReplaceAll key repl 0 b).
Proof.
  apply ReplaceAll_no_match. unfold match_value.
  destruct key as [|k0 key']; [congruence|]. rewrite HasPrefix_cons.
  cbn in key_no_amp. apply andb_true_iff in key_no_amp as [Hk _].
  unfold not_amp, is_amp in Hk. apply negb_true_iff in Hk.
  rewrite Hk. reflexivity.
Qed.

Lemma ReplaceAll_concat l :
  Forall (fun seg => no_amp seg) l ->
  ReplaceAll key repl 0 (String.concat "&" l) =
  String.concat "&" (map (segReplace key repl) l).
Proof.
  induction l as [|x [|y l] IH]; intros Hall; [reflexivity | |];
    apply Forall_cons in Hall as [Hx Hall].
  - cbn [String.concat map].
    rewrite <- (app_empty_r x) at 1.
    rewrite (ReplaceAll_segment key repl key_no_amp x "") by (try left; auto).
    apply app_empty_r.
  - cbn [map]. rewrite !concat_cons2.
    rewrite (ReplaceAll_segment key repl key_no_amp) by (try right; eauto).
    rewrite ReplaceAll_amp, IH by assumption. reflexivity.
Qed.

(** Replacing all matches rewrites each ['&']-separated segment on its own,
    and keeps the segments where they are. *)
Lemma split_amp_ReplaceAll s :
  split_amp (ReplaceAll key repl 0 s) = map (segReplace key repl) (split_amp s).
Proof.
  rewrite <- (concat_split s) at 1.
  rewrite ReplaceAll_concat by apply split_amp_no_amp.
  apply split_concat.
  - destruct (split_amp s) eqn:E; [destruct (split_amp_nonempty _ E) | discriminate].
  - apply Forall_map. eapply Forall_impl; [apply split_amp_no_amp|].
    intros seg Hs. apply segReplace_no_amp; assumption.
Qed.

End Segments.


(** ** Decimal numerals *)

Lemma digits_of_uint (d : Decimal.uint) :
  all_chars is_digit (NilEmpty.string_of_uint d) = true.
Proof. induction d; cbn; auto. Qed.

Lemma FormatInt_nonneg n :
  0 <= n -> n = 0 /\ FormatInt n = "0" \/
            exists q, n = Z.pos q /\ FormatInt n = NilEmpty.string_of_uint (Pos.to_uint q).
Proof.
  intros Hn. destruct n as [|q|q]; [left; split; reflexivity | right | lia].
  exists q. split; [reflexivity|]. unfold FormatInt. cbn.
  unfold NilZero.string_of_uint.
  destruct (Pos.to_uint q) eqn:E; try reflexivity.
  exfalso. eapply Unsigned.to_uint_nonnil. eassumption.
Qed.

Lemma FormatInt_chars n :
  all_chars (fun c => is_digit c || Ascii.eqb c "-") (FormatInt n) = true.
Proof.
  assert (forall d, all_chars (fun c => is_digit c || Ascii.eqb c "-")
                      (NilZero.string_of_uint d) = true) as Hd.
  { intros d. apply all_chars_impl with (f := is_digit).
    - intros c ->. reflexivity.
    - unfold NilZero.string_of_uint. destruct d; try apply digits_of_uint. reflexivity. }
  unfold FormatInt. destruct (Z.to_int n) as [d|d]; cbn; [apply Hd|].
  apply Hd.
Qed.

Section Unfolding.
Context `{Platform}.

Lemma GeneratePagination_short p :
  Total p < Limit p -> GeneratePagination p = (Returns None, p).
Proof.
  intros Hlt. unfold GeneratePagination.
  destruct (Z.ltb_spec (Total p) (Limit p)); [reflexivity | lia].
Qed.

Lemma normalized_Limit p : Limit (normalized p) = Limit p.
Proof.
  unfold normalized, appendToURL.
  repeat match goal with |- context [if ?b then _ else _] => destruct b end;
    reflexivity.
Qed.

Lemma normalized_Total p : Total (normalized p) = Total p.
Proof.
  unfold normalized, appendToURL.
  repeat match goal with |- context [if ?b then _ else _] => destruct b end;
    reflexivity.
Qed.

(** Past the short-circuit the method is exactly: normalise, extract, then
    either panic in the [last] block or return the four-block link set. *)
Lemma GeneratePagination_long p :
  Limit p <= Total p ->
  GeneratePagination p =
    (if dividesByZero p then Panics
     else Returns (Some (linkSet (workingURL p) (Total p)
                                 (effectiveLimit p) (effectiveOffset p))),
     normalized p).
Proof.
  intros Hle. unfold GeneratePagination.
  destruct (Z.ltb_spec (Total p) (Limit p)) as [Hlt|_]; [lia|].
  fold (normalized p).
  rewrite (normalized_Limit p), (normalized_Total p).
  fold (workingURL p). fold (extractedLimit p). fold (extractedOffset p).
  fold (effectiveLimit p). fold (effectiveOffset p).
  unfold dividesByZero, linkSet, rewriteURL, lastPageOffset.
  destruct (Int64.add (effectiveOffset p) (effectiveLimit p) <? Total p);
    [destruct (effectiveLimit p =? 0)|]; reflexivity.
Qed.

End Unfolding.

(** ** The link set, key by key *)

Section LinkSet.

Lemma keys_distinct :
  KeyFirstPage <> KeyPreviousPage /\ KeyFirstPage <> KeyNextPage /\
  KeyFirstPage <> KeyLastPage /\ KeyPreviousPage <> KeyNextPage /\
  KeyPreviousPage <> KeyLastPage /\ KeyNextPage <> KeyLastPage.
Proof. repeat split; discriminate. Qed.

Lemma linkSet_lookup w total limit offset k :
  linkSet w total limit offset !! k =
  rewriteURL w limit <$> targetOffset total limit offset k.
Proof.
  destruct keys_distinct as (H1 & H2 & H3 & H4 & H5 & H6).
  unfold linkSet, targetOffset.
  repeat case_decide; subst;
    repeat match goal with
           | |- context [if ?b then _ else _] => destruct b
           end;
    simplify_map_eq; reflexivity.
Qed.

Lemma targetOffset_key total limit offset k o :
  targetOffset total limit offset k = Some o ->
  k ∈ ({[KeyFirstPage; KeyPreviousPage; KeyNextPage; KeyLastPage]} : gset string).
Proof.
  unfold targetOffset. repeat case_decide; subst; try discriminate; set_solver.
Qed.

Lemma linkSet_dom w total limit offset :
  dom (linkSet w total limit offset)
  ⊆ ({[KeyFirstPage; KeyPreviousPage; KeyNextPage; KeyLastPage]} : gset string).
Proof.
  intros k Hk. apply elem_of_dom in Hk as [u Hu].
  rewrite linkSet_lookup in Hu.
  destruct (targetOffset total limit offset k) as [o|] eqn:Ho; [|discriminate].
  eapply targetOffset_key; eassumption.
Qed.

Lemma linkSet_size w total limit offset :
  (size (linkSet w total limit offset) <= 4)%nat.
Proof.
  rewrite <- size_dom.
  etransitivity; [apply subseteq_size, linkSet_dom|].
  vm_compute. lia.
Qed.

End LinkSet.

(** ** Outcome of a call *)

Section Outcome.
Context `{Platform}.

Lemma effectiveLimit_zero p : effectiveLimit p = 0 -> Limit p = 0.
Proof.
  unfold effectiveLimit.
  destruct (Z.eqb_spec
    (Float64.to_int64 (Float64.Min (Float64.of_int64 (extractedLimit p))
                                   (Float64.of_int64 (Limit p)))) 0);
    [tauto | intros; congruence].
Qed.

Lemma dividesByZero_Limit p : dividesByZero p = true -> Limit p = 0.
Proof.
  unfold dividesByZero. intros [_ Hz]%andb_true_iff.
  apply effectiveLimit_zero. lia.
Qed.

Lemma GeneratePagination_returns p :
  Limit p <= Total p -> Limit p <> 0 ->
  GeneratePagination p =
    (Returns (Some (linkSet (workingURL p) (Total p)
                            (effectiveLimit p) (effectiveOffset p))),
     normalized p).
Proof.
  intros Hle Hnz. rewrite GeneratePagination_long by assumption.
  destruct (dividesByZero p) eqn:Hd; [|reflexivity].
  apply dividesByZero_Limit in Hd. contradiction.
Qed.

End Outcome.

(** ** The cases of the test suite

    The ten cases of TestOffsetPagination_GeneratePagination in
    resource_test.go, with their expected link sets. *)

Lemma test_suite_cases `{Platform} :
  (GeneratePagination (mkOffsetPagination "/?page[limit]=111&page[offset]=0" 100 334)).1 =
    Returns (Some {[ KeyNextPage := "/?page[limit]=100&page[offset]=100";
                     KeyLastPage := "/?page[limit]=100&page[offset]=300" ]}) /\
  (GeneratePagination (mkOffsetPagination "/?page[limit]=111&page[offset]=0" 100 300)).1 =
    Returns (Some {[ KeyNextPage := "/?page[limit]=100&page[offset]=100";
                     KeyLastPage := "/?page[limit]=100&page[offset]=200" ]}) /\
  (GeneratePagination (mkOffsetPagination "/?page[limit]=111&page[offset]=80" 100 334)).1 =
    Returns (Some {[ KeyFirstPage := "/?page[limit]=100&page[offset]=0";
                     KeyNextPage := "/?page[limit]=100&page[offset]=180";
                     KeyLastPage := "/?page[limit]=100&page[offset]=280" ]}) /\
  (GeneratePagination (mkOffsetPagination "/?page[limit]=111&page[offset]=111" 100 334)).1 =
    Returns (Some {[ KeyFirstPage := "/?page[limit]=100&page[offset]=0";
                     KeyPreviousPage := "/?page[limit]=100&page[offset]=11";
                     KeyNextPage := "/?page[limit]=100&page[offset]=211";
                     KeyLastPage := "/?page[limit]=100&page[offset]=311" ]}) /\
  (GeneratePagination (mkOffsetPagination "/?page[limit]=111&page[offset]=111&page[sort]=-1&aparam=2" 100 334)).1 =
    Returns (Some {[ KeyFirstPage := "/?page[limit]=100&page[offset]=0&page[sort]=-1&aparam=2";
                     KeyPreviousPage := "/?page[limit]=100&page[offset]=11&page[sort]=-1&aparam=2";
                     KeyNextPage := "/?page[limit]=100&page[offset]=211&page[sort]=-1&aparam=2";
                     KeyLastPage := "/?page[limit]=100&page[offset]=311&page[sort]=-1&aparam=2" ]}) /\
  (GeneratePagination (mkOffsetPagination "/?page[sort]=-1&aparam=2&page[limit]=111&page[offset]=111" 100 334)).1 =
    Returns (Some {[ KeyFirstPage := "/?page[sort]=-1&aparam=2&page[limit]=100&page[offset]=0";
                     KeyPreviousPage := "/?page[sort]=-1&aparam=2&page[limit]=100&page[offset]=11";
                     KeyNextPage := "/?page[sort]=-1&aparam=2&page[limit]=100&page[offset]=211";
                     KeyLastPage := "/?page[sort]=-1&aparam=2&page[limit]=100&page[offset]=311" ]}) /\
  (GeneratePagination (mkOffsetPagination "/?page[sort]=-1&page[limit]=111&aparam=2&page[offset]=111&lastparam=owt" 100 334)).1 =
    Returns (Some {[ KeyFirstPage := "/?page[sort]=-1&page[limit]=100&aparam=2&page[offset]=0&lastparam=owt";
                     KeyPreviousPage := "/?page[sort]=-1&page[limit]=100&aparam=2&page[offset]=11&lastparam=owt";
                     KeyNextPage := "/?page[sort]=-1&page[limit]=100&aparam=2&page[offset]=211&lastparam=owt";
                     KeyLastPage := "/?page[sort]=-1&page[limit]=100&aparam=2&page[offset]=311&lastparam=owt" ]}) /\
  (GeneratePagination (mkOffsetPagination "/" 100 334)).1 =
    Returns (Some {[ KeyNextPage := "/?page[limit]=100&page[offset]=100";
                     KeyLastPage := "/?page[limit]=100&page[offset]=300" ]}) /\
  (GeneratePagination (mkOffsetPagination "/?param=owt" 100 334)).1 =
    Returns (Some {[ KeyNextPage := "/?param=owt&page[limit]=100&page[offset]=100";
                     KeyLastPage := "/?param=owt&page[limit]=100&page[offset]=300" ]}) /\
  (GeneratePagination (mkOffsetPagination "/?page[limit]=abc&page[offset]=def" 100 334)).1 =
    Returns (Some {[ KeyLastPage := "/?page[limit]=100&page[offset]=300";
                     KeyNextPage := "/?page[limit]=100&page[offset]=100" ]}).
Proof. repeat apply conj; vm_compute; reflexivity. Qed.

(** ** Machine arithmetic within range *)

Lemma wrap64_in_range z : Int64.in_range z -> Int64.wrap64 z = z.
Proof.
  unfold Int64.in_range, Int64.min_int, Int64.max_int, Int64.wrap64.
  intros Hz. rewrite Z.mod_small; lia.
Qed.

Lemma lastPageOffset_exact total limit offset :
  0 <= total -> 1 <= limit -> 0 <= offset ->
  total + limit <= Int64.max_int ->
  lastPageOffset total limit offset = specLastOffset total limit offset /\
  specLastOffset total limit offset <= total.
Proof.
  intros Ht Hl Ho Hfit.
  unfold lastPageOffset, specLastOffset, ceil_div,
    Int64.quo, Int64.rem, Int64.add, Int64.sub, Int64.mul.
  unfold Int64.max_int in Hfit.
  rewrite (Z.quot_div_nonneg total limit), !Z.rem_mod_nonneg by lia.
  pose proof (Z.div_mod total limit ltac:(lia)) as Hdm.
  pose proof (Z.mod_pos_bound total limit ltac:(lia)) as Hmt.
  pose proof (Z.mod_pos_bound offset limit ltac:(lia)) as Hmo.
  assert (0 <= total / limit <= total) as Hq.
  { split; [apply Z.div_pos; lia|]. apply Z.div_le_upper_bound; nia. }
  assert (Hin : forall z, - 2 ^ 63 <= z <= 2 ^ 63 - 1 -> Int64.wrap64 z = z).
  { intros z Hz. apply wrap64_in_range. exact Hz. }
  rewrite (Hin (total / limit)) by lia.
  assert ((total + limit - 1) / limit =
          if 0 <? total mod limit then total / limit + 1 else total / limit)
    as Hceil.
  { destruct (Z.ltb_spec 0 (total mod limit)).
    - symmetry. apply Z.div_unique with (r := total mod limit - 1); lia.
    - symmetry. apply Z.div_unique with (r := limit - 1); lia. }
  rewrite Hceil.
  set (pages := if 0 <? total mod limit
                then Int64.wrap64 (total / limit + 1) else total / limit).
  assert (pages = if 0 <? total mod limit then total / limit + 1 else total / limit)
    as Hpages.
  { subst pages. destruct (0 <? total mod limit); [apply Hin; lia | reflexivity]. }
  rewrite <- Hpages.
  assert (total - limit < (pages - 1) * limit + 1 /\ (pages - 1) * limit < total)
    as Hlo.
  { rewrite Hpages. destruct (Z.ltb_spec 0 (total mod limit)); nia. }
  rewrite (Hin (pages - 1)) by nia.
  rewrite (Hin ((pages - 1) * limit)) by nia.
  rewrite (Hin ((pages - 1) * limit + offset mod limit)) by lia.
  destruct (Z.ltb_spec total ((pages - 1) * limit + offset mod limit)).
  - rewrite Hin by lia. lia.
  - lia.
Qed.

(** ** Conversions through float64 *)

Lemma Atoi_nonneg s : 0 <= Atoi s.
Proof.
  unfold Atoi. destruct (NilEmpty.uint_of_string s); [|lia].
  unfold Int64.max_int. lia.
Qed.

Lemma getPageParam_nonneg name url : 0 <= getPageParam name url.
Proof.
  unfold getPageParam. destruct (FindDigits _ url); [apply Atoi_nonneg | lia].
Qed.

Lemma of_int64_nonneg x : 0 <= x -> 0 <= Float64.of_int64 x.
Proof.
  intros Hx. unfold Float64.of_int64.
  destruct (Z.abs x <? 2 ^ 53); [assumption|].
  set (e := Z.log2 (Z.abs x) - 52).
  assert (0 <= Z.abs x / 2 ^ e) as Hq.
  { destruct (Z.le_gt_cases 0 e).
    - apply Z.div_pos; [lia | apply Z.pow_pos_nonneg; lia].
    - rewrite Z.pow_neg_r by lia. rewrite Z.div_0_r. lia. }
  assert (0 <= 2 ^ e) as Hp by (apply Z.pow_nonneg; lia).
  apply Z.mul_nonneg_nonneg; [apply Z.sgn_nonneg; assumption|].
  apply Z.mul_nonneg_nonneg; [|assumption].
  repeat match goal with |- context [if ?b then _ else _] => destruct b end; lia.
Qed.

Lemma converts_back_below x : x < 2 ^ 63 - 512 -> Float64.converts_back x.
Proof.
  intros Hx. unfold Float64.converts_back, Float64.of_int64, Int64.max_int.
  destruct (Z.ltb_spec (Z.abs x) (2 ^ 53)) as [Hs|Hb]; [lia|].
  destruct (Z.le_gt_cases x 0) as [Hneg|Hpos].
  - set (e := Z.log2 (Z.abs x) - 52).
    assert (0 <= Z.abs x / 2 ^ e) as Hq.
    { destruct (Z.le_gt_cases 0 e).
      - apply Z.div_pos; [lia | apply Z.pow_pos_nonneg; lia].
      - rewrite Z.pow_neg_r by lia. rewrite Z.div_0_r. lia. }
    assert (0 <= 2 ^ e) as Hp by (apply Z.pow_nonneg; lia).
    assert (Z.sgn x <= 0) by lia.
    match goal with |- Z.sgn x * (?q' * _) <= _ =>
      assert (0 <= q') as Hq'
        by (repeat match goal with |- context [if ?b then _ else _] => destruct b end; lia)
    end.
    nia.
  - rewrite (Z.abs_eq x) in * by lia. rewrite Z.sgn_pos, Z.mul_1_l by lia.
    pose proof (Z.log2_spec x Hpos) as [Hlo Hhi].
    assert (53 <= Z.log2 x) as Hl1.
    { apply Z.log2_le_pow2; lia. }
    assert (Z.log2 x < 63) as Hl2.
    { apply Z.log2_lt_pow2; lia. }
    set (e := Z.log2 x - 52) in *.
    replace (Z.log2 x) with (e + 52) in Hlo by (unfold e; lia).
    replace (Z.succ (Z.log2 x)) with (e + 53) in Hhi by (unfold e; lia).
    assert (1 <= e <= 10) as He by (unfold e; lia). clearbody e. clear Hl1 Hl2.
    rewrite !Z.pow_add_r in Hlo, Hhi by lia.
    assert (0 < 2 ^ e) as Hp by (apply Z.pow_pos_nonneg; lia).
    pose proof (Z.div_mod x (2 ^ e) ltac:(lia)) as Hdm.
    pose proof (Z.mod_pos_bound x (2 ^ e) Hp) as Hm.
    set (q := x / 2 ^ e) in *. set (r := x mod 2 ^ e) in *.
    assert (q < 2 ^ 53) as Hq by nia.
    assert (2 ^ e = 2 * 2 ^ (e - 1)) as Hhalf.
    { rewrite <- Z.pow_succ_r by lia. f_equal. lia. }
    assert (2 ^ e <= 2 ^ 10) as Hle by (apply Z.pow_le_mono_r; lia).
    destruct (Z.ltb_spec r (2 ^ (e - 1))) as [Hr|Hr].
    + nia.
    + assert (q + 1 <= 2 ^ 53 - 1 \/ (q = 2 ^ 53 - 1 /\ e < 10)) as Hcase.
      { destruct (Z.eq_dec q (2 ^ 53 - 1)) as [->|]; [|lia]. right. split; [reflexivity|].
        destruct (Z.eq_dec e 10) as [->|]; [|lia]. exfalso. 
        change (2 ^ (10 - 1)) with 512 in *. change (2 ^ 10) with 1024 in *. lia. }
      assert ((q + 1) * 2 ^ e <= 2 ^ 63 - 1) as Hres.
      { destruct Hcase as [Hc|[-> He10]].
        - nia.
        - assert (2 ^ e <= 2 ^ 9) by (apply Z.pow_le_mono_r; lia). nia. }
      repeat match goal with |- context [if ?b then _ else _] => destruct b end; nia.
Qed.

Lemma to_int64_in_range `{Platform} f :
  Int64.min_int <= f <= Int64.max_int -> Float64.to_int64 f = f.
Proof.
  intros [Hlo Hhi]. unfold Float64.to_int64.
  destruct (Z.leb_spec Int64.min_int f); [|lia].
  destruct (Z.leb_spec f Int64.max_int); [reflexivity | lia].
Qed.

Section Conversions.
Context `{Platform}.

Lemma effectiveOffset_nonneg p :
  Float64.converts_back (extractedOffset p) ->
  0 <= effectiveOffset p <= Int64.max_int.
Proof.
  unfold Float64.converts_back, effectiveOffset, Float64.Max. intros Hc.
  change (Float64.of_int64 0) with 0.
  rewrite to_int64_in_range; unfold Int64.min_int, Int64.max_int in *; lia.
Qed.

Lemma effectiveLimit_positive p :
  0 <= Limit p -> Limit p <> 0 -> Float64.converts_back (Limit p) ->
  1 <= effectiveLimit p.
Proof.
  unfold Float64.converts_back, effectiveLimit, Float64.Min. intros Hl Hnz Hc.
  pose proof (of_int64_nonneg _ (getPageParam_nonneg "Limit" (workingURL p))) as He.
  pose proof (of_int64_nonneg _ Hl) as Hf.
  fold (extractedLimit p) in He.
  rewrite to_int64_in_range
    by (unfold Int64.min_int, Int64.max_int in *; lia).
  destruct (Z.eqb_spec
    (Z.min (Float64.of_int64 (extractedLimit p)) (Float64.of_int64 (Limit p))) 0);
    lia.
Qed.

End Conversions.

(** ** Normalisation of the working URL *)

Lemma appendToURL_spec p param :
  appendToURL p param = set_URL p (specAppend (URL p) param).
Proof.
  unfold appendToURL, specAppend. destruct (Contains (URL p) "?"); reflexivity.
Qed.

(** Appending the limit parameter neither adds nor hides "page[offset]". *)
Lemma Contains_offset_after_append url n :
  Contains (specAppend url ("page[limit]=" +:+ FormatInt n)) "page[offset]" =
  Contains url "page[offset]".
Proof.
  assert (Contains ("page[limit]=" +:+ FormatInt n) "page[offset]" = false) as Hnew.
  { generalize (FormatInt_chars n). generalize (FormatInt n) as N. intros N HN.
    rewrite !app_cons, app_empty_l. cbn.
    apply Contains_without_first.
    eapply all_chars_impl; [|exact HN].
    intros c Hc. unfold is_digit in Hc.
    destruct (Ascii.eqb_spec "p" c) as [<-|]; [discriminate | reflexivity]. }
  unfold specAppend. destruct (Contains url "?");
    rewrite app_single, Contains_app_sep, Hnew by reflexivity; apply orb_false_r.
Qed.

Lemma workingURL_spec `{Platform} p :
  normalized p = set_URL p (specWorkingURL (URL p) (Limit p)).
Proof.
  unfold normalized, specWorkingURL.
  destruct (Contains (URL p) "page[limit]") eqn:Hl; cbn [negb].
  - destruct (Contains (URL p) "page[offset]"); cbn [negb].
    + destruct p; reflexivity.
    + apply appendToURL_spec.
  - rewrite appendToURL_spec. cbn [URL set_URL].
    rewrite Contains_offset_after_append.
    destruct (Contains (URL p) "page[offset]"); cbn [negb].
    + reflexivity.
    + rewrite appendToURL_spec. reflexivity.
Qed.

(** ** Reading a rewritten URL back *)


Lemma drop_add a b s : drop (a + b) s = drop b (drop a s).
Proof.
  revert s. induction a as [|a IH]; intros s; [rewrite drop_0; reflexivity|].
  destruct s as [|c s]; [destruct b; reflexivity|]. apply IH.
Qed.

Lemma drop_take_while_stops s :
  stops (drop (String.length (take_while not_amp s)) s).
Proof.
  induction s as [|c s IH]; [left; reflexivity|].
  cbn [take_while]. destruct (not_amp c) eqn:Hc; [exact IH|].
  right. exists s. unfold not_amp, is_amp in Hc. apply negb_false_iff in Hc.
  apply Ascii.eqb_eq in Hc as ->. reflexivity.
Qed.

Lemma match_value_stops key c s k :
  match_value key (String c s) = Some (S k) -> stops (drop k s).
Proof.
  rewrite match_value_unfold. cbn zeta.
  destruct (_ && _); [|discriminate]. intros [= Hk].
  change (drop k s) with (drop (S k) (String c s)).
  rewrite <- Hk, drop_add. apply drop_take_while_stops.
Qed.

Lemma take_while_app_all f (v y : string) :
  all_chars f v = true -> take_while f (v +:+ y) = v +:+ take_while f y.
Proof.
  induction v as [|c v IH]; [reflexivity|]. cbn [all_chars].
  intros [Hc Hv]%andb_true_iff. rewrite !app_cons. cbn [take_while].
  rewrite Hc, (IH Hv). reflexivity.
Qed.

Lemma HasPrefix_app_r s t u :
  HasPrefix s (t +:+ u) = HasPrefix s t && HasPrefix (drop (String.length t) s) u.
Proof.
  revert s. induction t as [|x t IH]; intros s.
  - rewrite app_empty_l, HasPrefix_empty, drop_0. reflexivity.
  - rewrite app_cons, !HasPrefix_cons. destruct s as [|c s]; [reflexivity|].
    cbn [String.length drop]. rewrite IH. apply andb_assoc.
Qed.

Section Reread.
Variables (k0 : ascii) (key' repl' : string).
Let key := String k0 key'.
Let repl := String k0 repl'.

Lemma ReplaceAll_prefix_back t s :
  all_chars (differs k0) t = true ->
  HasPrefix (ReplaceAll key repl 0 s) t = true -> HasPrefix s t = true.
Proof.
  revert s. induction t as [|x t IH]; intros s Ht; [intros; apply HasPrefix_empty|].
  cbn [all_chars] in Ht. apply andb_true_iff in Ht as [Hx Ht].
  destruct s as [|c s]; [intros Hp; exact Hp|].
  cbn [ReplaceAll]. destruct (match_value key (String c s)) as [[|k]|].
  - rewrite !HasPrefix_cons. intros [-> Hp]%andb_true_iff. rewrite (IH _ Ht Hp). reflexivity.
  - unfold repl. rewrite app_cons, HasPrefix_cons.
    unfold differs in Hx. rewrite Ascii.eqb_sym. destruct (Ascii.eqb k0 x); discriminate.
  - rewrite !HasPrefix_cons. intros [-> Hp]%andb_true_iff. rewrite (IH _ Ht Hp). reflexivity.
Qed.

Lemma ReplaceAll_of_stops s :
  is_amp k0 = false -> stops s -> stops (ReplaceAll key repl 0 s).
Proof.
  intros Hk [->|[b ->]]; [left; reflexivity|]. right.
  cbn [ReplaceAll]. unfold match_value, key. rewrite HasPrefix_cons.
  unfold is_amp in Hk. rewrite Hk. cbn [andb]. eauto.
Qed.

Lemma take_while_digit_stops s : stops s -> take_while is_digit s = "".
Proof. intros [->|[b ->]]; reflexivity. Qed.

Section Digits.
Variable v : string.
Hypothesis repl_shape : repl' = key' +:+ v.
Hypothesis v_digits : all_chars is_digit v = true.
Hypothesis v_nonempty : v <> "".
Hypothesis k0_not_amp : is_amp k0 = false.
Hypothesis k0_not_digit : is_digit k0 = false.
Hypothesis k0_once : all_chars (differs k0) key' = true.

(** After the rewrite, digits found behind the key are the new value. *)
Lemma FindDigits_ReplaceAll s ds :
  FindDigits key (ReplaceAll key repl 0 s) = Some ds -> ds = v.
Proof.
  remember (String.length s) as n eqn:Hn.
  revert s Hn. induction n as [n IH] using lt_wf_ind. intros s Hn.
  destruct s as [|c s]; [discriminate|].
  destruct (match_value key (String c s)) as [[|k]|] eqn:Hm.
  - exfalso. unfold match_value in Hm. destruct (_ && _); [|discriminate].
    unfold key in Hm. cbn in Hm. discriminate.
  - rewrite (ReplaceAll_match _ _ _ _ _ Hm).
    pose proof (ReplaceAll_of_stops _ k0_not_amp (match_value_stops _ _ _ _ Hm)) as Hst.
    set (y := ReplaceAll key repl 0 (drop k s)) in *.
    unfold repl. rewrite repl_shape. rewrite app_cons.
    cbn [FindDigits].
    change (String k0 ((key' +:+ v) +:+ y)) with ((key +:+ v) +:+ y).
    rewrite (app_assoc_s key v y), drop_app_length, HasPrefix_app.
    rewrite (take_while_app_all _ _ _ v_digits), (take_while_digit_stops _ Hst), app_empty_r.
    destruct v; [congruence|]. cbn. congruence.
  - rewrite (ReplaceAll_no_match _ _ _ _ Hm). cbn [FindDigits].
    set (x := ReplaceAll key repl 0 s).
    destruct (HasPrefix (String c x) key &&
              negb (take_while is_digit (drop (String.length key) (String c x)) =? "")%string)
      eqn:Hc.
    + exfalso. apply andb_true_iff in Hc as [Hp Hd].
      unfold key in Hp, Hd. rewrite HasPrefix_cons in Hp.
      apply andb_true_iff in Hp as [Hk Hp]. apply Ascii.eqb_eq in Hk as <-.
      cbn [String.length drop] in Hd.
      destruct (drop (String.length key') x) as [|d r] eqn:Hdrop; [discriminate|].
      cbn [take_while] in Hd. destruct (is_digit d) eqn:Hdig; [|discriminate].
      assert (HasPrefix x (key' +:+ String d "") = true) as Hpd.
      { rewrite HasPrefix_app_r, Hp, Hdrop, HasPrefix_cons, Ascii.eqb_refl.
        rewrite HasPrefix_empty. reflexivity. }
      apply ReplaceAll_prefix_back in Hpd.
      2:{ rewrite all_chars_app, k0_once. cbn. unfold differs.
          destruct (Ascii.eqb_spec k0 d) as [->|]; [congruence | reflexivity]. }
      rewrite HasPrefix_app_r in Hpd. apply andb_true_iff in Hpd as [Hp1 Hp2].
      unfold match_value in Hm. unfold key in Hm at 1.
      rewrite HasPrefix_cons, Ascii.eqb_refl, Hp1 in Hm. cbn [andb] in Hm.
      unfold key in Hm. cbn [String.length drop] in Hm.
      destruct (drop (String.length key') s) as [|d' r']; [discriminate|].
      rewrite HasPrefix_cons in Hp2. apply andb_true_iff in Hp2 as [Hd' _].
      apply Ascii.eqb_eq in Hd' as <-. cbn [take_while] in Hm.
      assert (is_amp d = false) as Hamp.
      { unfold is_amp. destruct (Ascii.eqb_spec d "&") as [->|]; [discriminate | reflexivity]. }
      unfold not_amp in Hm. rewrite Hamp in Hm. discriminate.
    + intros Hf. eapply (IH (String.length s)); [|reflexivity|exact Hf].
      subst n. cbn. lia.
Qed.

End Digits.

End Reread.

Lemma Contains_drop s k x : Contains s x = false -> Contains (drop k s) x = false.
Proof.
  revert s. induction k as [|k IH]; intros s Hs; [rewrite drop_0; exact Hs|].
  destruct s as [|c s]; [exact Hs|].
  rewrite Contains_cons in Hs. apply orb_false_iff in Hs as [_ Hs]. apply IH, Hs.
Qed.

Lemma Contains_app_without_first (t y : string) k0 x :
  all_chars (differs k0) t = true ->
  Contains (t +:+ y) (String k0 x) = Contains y (String k0 x).
Proof.
  induction t as [|c t IH]; [reflexivity|]. cbn [all_chars].
  intros [Hc Ht]%andb_true_iff. rewrite app_cons, Contains_cons, HasPrefix_cons, (IH Ht).
  unfold differs in Hc. destruct (Ascii.eqb k0 c); [discriminate | reflexivity].
Qed.

Section NoNew.
Variables (k0 : ascii) (key' repl' x' : string).
Let key := String k0 key'.
Let repl := String k0 repl'.
Let x := String k0 x'.
Hypothesis x_once : all_chars (differs k0) x' = true.
Hypothesis repl_clean : forall y, Contains (repl +:+ y) x = Contains y x.

(** The rewrite does not produce a text [x] that was not there. *)
Lemma Contains_ReplaceAll s :
  Contains s x = false -> Contains (ReplaceAll key repl 0 s) x = false.
Proof.
  remember (String.length s) as n eqn:Hn.
  revert s Hn. induction n as [n IH] using lt_wf_ind. intros s Hn Hs.
  destruct s as [|c s]; [exact Hs|].
  assert (Hlen : forall k, (String.length (drop k s) < n)%nat).
  { subst n. clear. intros k. revert s. induction k as [|k IH]; intros s.
    - rewrite drop_0. cbn. lia.
    - destruct s as [|c' s]; [cbn; lia|]. cbn [drop]. specialize (IH s).
      cbn [String.length] in *. lia. }
  pose proof Hs as Hs0.
  rewrite Contains_cons in Hs. apply orb_false_iff in Hs as [Hp Hs].
  destruct (match_value key (String c s)) as [[|k]|] eqn:Hm.
  - exfalso. unfold match_value in Hm. destruct (_ && _); [|discriminate].
    unfold key in Hm. cbn in Hm. discriminate.
  - rewrite (ReplaceAll_match _ _ _ _ _ Hm), repl_clean.
    eapply (IH _ (Hlen k)); [reflexivity|]. apply Contains_drop, Hs.
  - rewrite (ReplaceAll_no_match _ _ _ _ Hm), Contains_cons.
    pose proof (Hlen 0%nat) as Hlen0. rewrite drop_0 in Hlen0.
    rewrite (IH _ Hlen0 s eq_refl Hs).
    rewrite orb_false_r. unfold x in *. rewrite HasPrefix_cons in *.
    destruct (Ascii.eqb k0 c); [|reflexivity]. cbn [andb] in *.
    destruct (HasPrefix (ReplaceAll key repl 0 s) x') eqn:Hp'; [|reflexivity].
    apply ReplaceAll_prefix_back in Hp'; [congruence | exact x_once].
Qed.

End NoNew.

(** ** Reading past an appended parameter *)

Lemma take_while_app_sep f (a : string) c b :
  f c = false -> take_while f (a +:+ String c b) = take_while f a.
Proof.
  intros Hc. induction a as [|y a IH].
  - rewrite app_empty_l. cbn [take_while]. rewrite Hc. reflexivity.
  - rewrite app_cons. cbn [take_while]. rewrite IH. reflexivity.
Qed.

Lemma FindDigits_app_sep key a c b :
  key <> "" -> all_chars (fun y => negb (Ascii.eqb y c)) key = true ->
  is_digit c = false ->
  FindDigits key (a +:+ String c b) =
  match FindDigits key a with
  | Some ds => Some ds
  | None => FindDigits key b
  end.
Proof.
  intros Hne Hk Hc. induction a as [|y a IH].
  - rewrite app_empty_l. cbn [FindDigits].
    destruct key as [|k0 key']; [congruence|].
    rewrite HasPrefix_cons. cbn in Hk. apply andb_true_iff in Hk as [Hk0 _].
    apply negb_true_iff in Hk0. rewrite Hk0. reflexivity.
  - rewrite app_cons. cbn [FindDigits]. rewrite <- app_cons, IH.
    rewrite (HasPrefix_app_sep _ _ _ _ Hk).
    destruct (HasPrefix (String y a) key) eqn:Hp; [|reflexivity].
    cbn [andb]. apply HasPrefix_split in Hp.
    assert (drop (String.length key) (String y a +:+ String c b) =
            drop (String.length key) (String y a) +:+ String c b) as ->.
    { rewrite Hp at 1. rewrite app_assoc_s, drop_app_length. reflexivity. }
    rewrite (take_while_app_sep _ _ _ _ Hc).
    destruct (negb _); reflexivity.
Qed.

Lemma FindDigits_Contains key s ds : FindDigits key s = Some ds -> Contains s key = true.
Proof.
  induction s as [|c s IH]; [discriminate|].
  cbn [FindDigits]. rewrite Contains_cons.
  destruct (HasPrefix (String c s) key); cbn [andb orb]; [reflexivity|].
  exact IH.
Qed.

Lemma HasPrefix_shorter s t u : HasPrefix s (t +:+ u) = true -> HasPrefix s t = true.
Proof. rewrite HasPrefix_app_r. intros [Hp _]%andb_true_iff. exact Hp. Qed.

Lemma Contains_shorter s t u : Contains s (t +:+ u) = true -> Contains s t = true.
Proof.
  induction s as [|c s IH].
  - cbn [Contains]. rewrite !orb_false_r. apply HasPrefix_shorter.
  - rewrite !Contains_cons. intros [Hp|Hc]%orb_true_iff.
    + rewrite (HasPrefix_shorter _ _ _ Hp). reflexivity.
    + rewrite (IH Hc). apply orb_true_r.
Qed.

(** ** Decimal round trip *)

Lemma Atoi_FormatInt n : 0 <= n <= Int64.max_int -> Atoi (FormatInt n) = n.
Proof.
  intros [Hlo Hhi]. destruct (FormatInt_nonneg n Hlo) as [[-> ->]|(q & -> & ->)];
    [reflexivity|].
  unfold Atoi. rewrite NilEmpty.usu.
  change (N.of_uint (Pos.to_uint q)) with (Pos.of_uint (Pos.to_uint q)).
  rewrite DecimalPos.Unsigned.of_to. cbn [Z.of_N]. lia.
Qed.

Lemma FormatInt_digits n :
  0 <= n -> all_chars is_digit (FormatInt n) = true /\ FormatInt n <> "".
Proof.
  intros Hn. destruct (FormatInt_nonneg n Hn) as [[-> ->]|(q & -> & ->)].
  - split; [reflexivity | discriminate].
  - split; [apply digits_of_uint|].
    destruct (Pos.to_uint q) eqn:E; cbn; try discriminate.
    destruct (Unsigned.to_uint_nonnil _ E).
Qed.

(** ** The rewritten link read again *)

Lemma FormatInt_no_p n : all_chars (differs "p") (FormatInt n) = true.
Proof.
  eapply all_chars_impl; [|apply FormatInt_chars].
  intros c Hc. unfold differs.
  destruct (Ascii.eqb_spec "p" c) as [<-|]; [discriminate | reflexivity].
Qed.

Lemma replaceParam_offset_read w o ds :
  0 <= o ->
  FindDigits "page[offset]=" (replaceParam w "page[offset]" (FormatInt o)) = Some ds ->
  ds = FormatInt o.
Proof.
  intros Ho. destruct (FormatInt_digits o Ho) as [Hd Hne].
  apply (FindDigits_ReplaceAll "p" "age[offset]=" _ (FormatInt o));
    auto; reflexivity.
Qed.

Lemma of_int64_exact x : Z.abs x < 2 ^ 53 -> Float64.of_int64 x = x.
Proof.
  intros Hx. unfold Float64.of_int64.
  destruct (Z.ltb_spec (Z.abs x) (2 ^ 53)); [reflexivity | lia].
Qed.

Section Rerun.
Context `{Platform}.

Lemma rerun_workingURL u limit total :
  Contains u "page[offset]" = true ->
  workingURL (mkOffsetPagination u limit total) = u \/
  exists c rest, is_digit c = false /\ (c = "?" \/ c = "&")%char /\
    workingURL (mkOffsetPagination u limit total) = u +:+ String c rest /\
    Contains rest "page[Limit]=" = false.
Proof.
  intros Ho. unfold workingURL. rewrite workingURL_spec.
  cbn [URL Limit set_URL]. unfold specWorkingURL. rewrite Ho.
  destruct (Contains u "page[limit]"); [left; reflexivity|]. right.
  assert (Contains ("page[limit]=" +:+ FormatInt limit) "page[Limit]=" = false) as Hrest.
  { rewrite !app_cons, app_empty_l. cbn.
    apply Contains_without_first. apply FormatInt_no_p. }
  unfold specAppend. destruct (Contains u "?"); rewrite app_single;
    [exists "&"%char | exists "?"%char];
    exists ("page[limit]=" +:+ FormatInt limit); auto.
Qed.

End Rerun.


(** ** Segments of the working URL and of a link *)

Lemma split_amp_app a b :
  split_amp (a +:+ String "&" b) = (split_amp a ++ split_amp b)%list.
Proof.
  induction a as [|c a IH]; [reflexivity|].
  rewrite app_cons. cbn [split_amp]. rewrite IH.
  destruct (is_amp c); [reflexivity|].
  destruct (split_amp a) as [|seg rest] eqn:E; [destruct (split_amp_nonempty _ E)|].
  reflexivity.
Qed.

Lemma segReplace_shape key v seg :
  segReplace key (key +:+ v) seg = seg \/
  exists a b, seg = a +:+ key +:+ b /\
              segReplace key (key +:+ v) seg = a +:+ key +:+ v.
Proof.
  induction seg as [|c seg IH]; [left; reflexivity|].
  cbn [segReplace].
  destruct (HasPrefix (String c seg) key) eqn:Hp; cbn [andb].
  - destruct (_ <? _)%nat.
    + right. exists "", (drop (String.length key) (String c seg)).
      rewrite !app_empty_l. split; [apply HasPrefix_split, Hp | reflexivity].
    + destruct IH as [->|(a & b & Hs & ->)]; [left; reflexivity|].
      right. exists (String c a), b. rewrite !app_cons. split; congruence.
  - destruct IH as [->|(a & b & Hs & ->)]; [left; reflexivity|].
    right. exists (String c a), b. rewrite !app_cons. split; congruence.
Qed.

Lemma replaceParam_segments url param value :
  param = "page[limit]" \/ param = "page[offset]" ->
  all_chars not_amp value = true ->
  split_amp (replaceParam url param value) =
  map (segReplace (param +:+ "=") (param +:+ "=" +:+ value)) (split_amp url).
Proof.
  intros Hparam Hv. unfold replaceParam. apply split_amp_ReplaceAll.
  - destruct Hparam as [-> | ->]; discriminate.
  - destruct Hparam as [-> | ->]; reflexivity.
  - rewrite <- app_assoc_s, all_chars_app, Hv.
    destruct Hparam as [-> | ->]; reflexivity.
Qed.

Lemma FormatInt_no_amp n : all_chars not_amp (FormatInt n) = true.
Proof.
  eapply all_chars_impl; [|apply FormatInt_chars].
  intros c Hc. unfold not_amp, is_amp.
  destruct (Ascii.eqb_spec c "&") as [->|]; [discriminate | reflexivity].
Qed.

Lemma workingURL_segments `{Platform} p :
  Contains (URL p) "?" = true ->
  exists extra, split_amp (workingURL p) = (split_amp (URL p) ++ extra)%list.
Proof.
  intros Hq. unfold workingURL. rewrite workingURL_spec. cbn [URL set_URL].
  unfold specWorkingURL, specAppend. rewrite Hq.
  destruct (Contains (URL p) "page[limit]"), (Contains (URL p) "page[offset]");
    rewrite ?Hq.
  - exists []. rewrite app_nil_r. reflexivity.
  - rewrite app_single, split_amp_app. eauto.
  - rewrite app_single, split_amp_app. eauto.
  - rewrite app_single, Contains_app_sep, Hq by reflexivity. cbn [orb].
    rewrite !app_single, !split_amp_app, <- app_assoc. eauto.
Qed.

(** ** Reading a URL segment by segment *)

Lemma wrap64_range z : Int64.in_range (Int64.wrap64 z).
Proof.
  unfold Int64.in_range, Int64.wrap64, Int64.min_int, Int64.max_int.
  pose proof (Z.mod_pos_bound (z + 2 ^ 63) (2 ^ 64) ltac:(lia)). lia.
Qed.

Lemma add_in_range a b : Int64.in_range (a + b) -> Int64.add a b = a + b.
Proof. apply wrap64_in_range. Qed.

Lemma sub_in_range a b : Int64.in_range (a - b) -> Int64.sub a b = a - b.
Proof. apply wrap64_in_range. Qed.

Section ReadSegments.
Variable key : string.
Hypothesis key_nonempty : key <> "".
Hypothesis key_no_amp : no_amp key.

Lemma FindDigits_concat x y l :
  FindDigits key (String.concat "&" (x :: y :: l)) =
  match FindDigits key x with
  | Some ds => Some ds
  | None => FindDigits key (String.concat "&" (y :: l))
  end.
Proof.
  rewrite concat_cons2. apply FindDigits_app_sep; [assumption | | reflexivity].
  eapply all_chars_impl; [|exact key_no_amp]. intros c Hc. exact Hc.
Qed.

(** Segments that read alike make URLs that read alike. *)
Lemma FindDigits_concat_map (g : string -> string) l :
  (forall seg, In seg l -> FindDigits key (g seg) = FindDigits key seg) ->
  FindDigits key (String.concat "&" (map g l)) = FindDigits key (String.concat "&" l).
Proof.
  induction l as [|x [|y l] IH]; intros Hg; [reflexivity | |].
  - cbn. apply Hg. left. reflexivity.
  - cbn [map]. rewrite !FindDigits_concat. rewrite (Hg x) by (left; reflexivity).
    destruct (FindDigits key x); [reflexivity|].
    apply IH. intros seg Hs. apply Hg. right. exact Hs.
Qed.

(** Segments that read [v] or nothing, one of them [v], make a URL that
    reads [v]. *)
Lemma FindDigits_concat_value v l :
  (forall seg ds, In seg l -> FindDigits key seg = Some ds -> ds = v) ->
  (exists seg, In seg l /\ FindDigits key seg <> None) ->
  FindDigits key (String.concat "&" l) = Some v.
Proof.
  induction l as [|x [|y l] IH]; intros Hall (seg & Hin & Hsome).
  - destruct Hin.
  - destruct Hin as [<-|[]]. cbn.
    destruct (FindDigits key x) as [ds|] eqn:E; [|congruence].
    f_equal. apply (Hall x ds); [left; reflexivity | exact E].
  - rewrite FindDigits_concat.
    destruct (FindDigits key x) as [ds|] eqn:E.
    + f_equal. apply (Hall x ds); [left; reflexivity | exact E].
    + apply IH.
      * intros s ds Hs. apply Hall. right. exact Hs.
      * destruct Hin as [<-|Hin]; [congruence|]. exists seg. split; assumption.
Qed.

End ReadSegments.

(** ** A parameter with a value *)

Lemma hasValue_Contains key seg : hasValue key seg = true -> Contains seg key = true.
Proof.
  induction seg as [|c seg IH]; [discriminate|].
  cbn [hasValue]. rewrite Contains_cons.
  intros [[Hp _]%andb_true_iff | Hv]%orb_true_iff.
  - rewrite Hp. reflexivity.
  - rewrite (IH Hv). apply orb_true_r.
Qed.

Lemma take_while_all f (s : string) : all_chars f s = true -> take_while f s = s.
Proof.
  intros Hs. rewrite <- (app_empty_r s) at 1.
  rewrite (take_while_app_all _ _ _ Hs). apply app_empty_r.
Qed.

Lemma FindDigits_at_key key ds :
  key <> "" -> all_chars is_digit ds = true -> ds <> "" ->
  FindDigits key (key +:+ ds) = Some ds.
Proof.
  intros Hk Hd Hne. destruct (key +:+ ds) as [|c t] eqn:E.
  - destruct key; [congruence | discriminate].
  - cbn [FindDigits]. rewrite <- E, HasPrefix_app, drop_app_length, (take_while_all _ _ Hd).
    destruct ds; [congruence | reflexivity].
Qed.

Lemma FindDigits_cons key c s :
  FindDigits key s <> None -> FindDigits key (String c s) <> None.
Proof. intros Hs. cbn [FindDigits]. destruct (_ && _); [discriminate | exact Hs]. Qed.

(** A segment that carries a value shows the new digits after the rewrite. *)
Lemma hasValue_read key v seg :
  key <> "" -> all_chars is_digit v = true -> v <> "" ->
  hasValue key seg = true ->
  FindDigits key (segReplace key (key +:+ v) seg) <> None.
Proof.
  intros Hk Hd Hne. induction seg as [|c seg IH]; [discriminate|].
  cbn [hasValue segReplace].
  destruct (HasPrefix (String c seg) key && (String.length key <? String.length (String c seg))%nat).
  - intros _. rewrite FindDigits_at_key by assumption. discriminate.
  - cbn [orb]. intros Hv. apply FindDigits_cons, IH, Hv.
Qed.

(** ** The rewrite of one segment *)

Lemma replaceParam_segment seg param value :
  param = "page[limit]" \/ param = "page[offset]" ->
  no_amp seg -> no_amp value ->
  replaceParam seg param value =
  segReplace (param +:+ "=") (param +:+ "=" +:+ value) seg.
Proof.
  intros Hp Hs Hv.
  rewrite <- (concat_split (replaceParam seg param value)).
  rewrite replaceParam_segments, (split_amp_single _ Hs) by assumption.
  reflexivity.
Qed.

Lemma ReplaceAll_absent key repl s :
  Contains s key = false -> ReplaceAll key repl 0 s = s.
Proof.
  induction s as [|c s IH]; [reflexivity|].
  rewrite Contains_cons. intros [Hp Hc]%orb_false_iff.
  rewrite ReplaceAll_no_match, (IH Hc); [reflexivity|].
  unfold match_value. rewrite Hp. reflexivity.
Qed.

Lemma replaceParam_same url param value :
  Contains url (param +:+ "=") = false -> replaceParam url param value = url.
Proof. intros Hno. unfold replaceParam. apply ReplaceAll_absent, Hno. Qed.

(** Rewriting one pagination parameter does not produce the key of another. *)
Lemma replaceParam_no_new w param value x :
  param = "page[limit]" /\ (x = "page[offset]=" \/ x = "page[Limit]=") \/
  param = "page[offset]" /\ (x = "page[limit]=" \/ x = "page[Limit]=") ->
  all_chars (differs "p") value = true ->
  Contains w x = false ->
  Contains (replaceParam w param value) x = false.
Proof.
  intros Hparam Hv.
  destruct Hparam as [[-> [-> | ->]] | [-> [-> | ->]]].
  - apply (Contains_ReplaceAll "p" "age[limit]=" ("age[limit]=" +:+ value) "age[offset]=");
      [reflexivity|].
    intros y. rewrite !app_cons, app_empty_l. cbn.
    apply Contains_app_without_first, Hv.
  - apply (Contains_ReplaceAll "p" "age[limit]=" ("age[limit]=" +:+ value) "age[Limit]=");
      [reflexivity|].
    intros y. rewrite !app_cons, app_empty_l. cbn.
    apply Contains_app_without_first, Hv.
  - apply (Contains_ReplaceAll "p" "age[offset]=" ("age[offset]=" +:+ value) "age[limit]=");
      [reflexivity|].
    intros y. rewrite !app_cons, app_empty_l. cbn.
    apply Contains_app_without_first, Hv.
  - apply (Contains_ReplaceAll "p" "age[offset]=" ("age[offset]=" +:+ value) "age[Limit]=");
      [reflexivity|].
    intros y. rewrite !app_cons, app_empty_l. cbn.
    apply Contains_app_without_first, Hv.
Qed.

Lemma replaceParam_limit_read w n ds :
  0 <= n ->
  FindDigits "page[limit]=" (replaceParam w "page[limit]" (FormatInt n)) = Some ds ->
  ds = FormatInt n.
Proof.
  intros Hn. destruct (FormatInt_digits n Hn) as [Hd Hne].
  apply (FindDigits_ReplaceAll "p" "age[limit]=" _ (FormatInt n));
    auto; reflexivity.
Qed.

(** ** The rewrite of a link, segment by segment *)

Lemma rewriteURL_segments w L o :
  split_amp (rewriteURL w L o) =
  map (fun seg =>
         segReplace "page[offset]=" ("page[offset]=" +:+ FormatInt o)
           (segReplace "page[limit]=" ("page[limit]=" +:+ FormatInt L) seg))
      (split_amp w).
Proof.
  unfold rewriteURL.
  rewrite !replaceParam_segments by (auto using FormatInt_no_amp).
  rewrite map_map. reflexivity.
Qed.

Lemma segment_no_amp w seg : In seg (split_amp w) -> no_amp seg.
Proof.
  intros Hin. pose proof (split_amp_no_amp w) as Hall.
  rewrite List.Forall_forall in Hall. exact (Hall seg Hin).
Qed.

Lemma rewriteURL_split w L o :
  split_amp (rewriteURL w L o) = map (fun seg => rewriteURL seg L o) (split_amp w).
Proof.
  rewrite rewriteURL_segments. apply map_ext_in. intros seg Hin.
  pose proof (segment_no_amp w seg Hin) as Hs.
  unfold rewriteURL.
  rewrite (replaceParam_segment seg "page[limit]") by (auto using FormatInt_no_amp).
  rewrite replaceParam_segment; [reflexivity | auto | | apply FormatInt_no_amp].
  apply segReplace_no_amp; [|exact Hs].
  rewrite !all_chars_app, FormatInt_no_amp. reflexivity.
Qed.

Lemma rewriteURL_concat w L o :
  rewriteURL w L o =
  String.concat "&" (map (fun seg => rewriteURL seg L o) (split_amp w)).
Proof. rewrite <- rewriteURL_split. symmetry. apply concat_split. Qed.

Lemma segment_reads_offset seg L o :
  no_amp seg -> 0 <= o ->
  (forall ds, FindDigits "page[offset]=" (rewriteURL seg L o) = Some ds ->
              ds = FormatInt o) /\
  (Contains seg "page[limit]=" && Contains seg "page[offset]=" = false ->
   hasValue "page[offset]=" seg = true ->
   FindDigits "page[offset]=" (rewriteURL seg L o) <> None).
Proof.
  intros Hs Ho. split.
  - intros ds. unfold rewriteURL. apply replaceParam_offset_read, Ho.
  - intros Hone Hv. pose proof (hasValue_Contains _ _ Hv) as Hc.
    rewrite Hc, andb_true_r in Hone.
    unfold rewriteURL. rewrite (replaceParam_same seg "page[limit]") by exact Hone.
    rewrite replaceParam_segment by (auto using FormatInt_no_amp).
    destruct (FormatInt_digits o Ho) as [Hd Hne].
    apply (hasValue_read "page[offset]=" (FormatInt o)); auto; discriminate.
Qed.

Lemma segment_reads_limit seg L o :
  no_amp seg -> 0 <= L ->
  Contains seg "page[limit]=" && Contains seg "page[offset]=" = false ->
  (forall ds, FindDigits "page[limit]=" (rewriteURL seg L o) = Some ds ->
              ds = FormatInt L) /\
  (hasValue "page[limit]=" seg = true ->
   FindDigits "page[limit]=" (rewriteURL seg L o) <> None).
Proof.
  intros Hs HL Hone. unfold rewriteURL.
  destruct (Contains seg "page[limit]=") eqn:Hl; cbn [andb] in Hone.
  - assert (Contains (replaceParam seg "page[limit]" (FormatInt L)) "page[offset]=" = false)
      as Hno by (apply replaceParam_no_new; auto using FormatInt_no_p).
    rewrite (replaceParam_same _ "page[offset]") by exact Hno.
    split; [intros ds; apply replaceParam_limit_read, HL|].
    intros Hv. rewrite replaceParam_segment by (auto using FormatInt_no_amp).
    destruct (FormatInt_digits L HL) as [Hd Hne].
    apply (hasValue_read "page[limit]=" (FormatInt L)); auto; discriminate.
  - rewrite (replaceParam_same seg "page[limit]") by exact Hl.
    assert (Contains (replaceParam seg "page[offset]" (FormatInt o)) "page[limit]=" = false)
      as Hno by (apply replaceParam_no_new; auto using FormatInt_no_p).
    split.
    + intros ds Hds. apply FindDigits_Contains in Hds. congruence.
    + intros Hv. apply hasValue_Contains in Hv. congruence.
Qed.

Lemma segment_reads_Limit seg L o :
  Contains seg "page[Limit]=" && Contains seg "page[limit]=" = false ->
  Contains seg "page[Limit]=" && Contains seg "page[offset]=" = false ->
  FindDigits "page[Limit]=" (rewriteURL seg L o) = FindDigits "page[Limit]=" seg.
Proof.
  intros Hl Ho. unfold rewriteURL.
  destruct (Contains seg "page[Limit]=") eqn:Hc; cbn [andb] in Hl, Ho.
  - rewrite (replaceParam_same seg "page[limit]") by exact Hl.
    rewrite (replaceParam_same seg "page[offset]") by exact Ho. reflexivity.
  - assert (Contains (replaceParam (replaceParam seg "page[limit]" (FormatInt L))
                        "page[offset]" (FormatInt o)) "page[Limit]=" = false) as Hno.
    { apply replaceParam_no_new; auto using FormatInt_no_p.
      apply replaceParam_no_new; auto using FormatInt_no_p. }
    destruct (FindDigits "page[Limit]=" (replaceParam _ _ _)) as [ds|] eqn:E1.
    { apply FindDigits_Contains in E1. congruence. }
    destruct (FindDigits "page[Limit]=" seg) as [ds|] eqn:E2; [|reflexivity].
    apply FindDigits_Contains in E2. congruence.
Qed.

Lemma apart_segment k1 k2 w seg :
  apart k1 k2 w = true -> In seg (split_amp w) ->
  Contains seg k1 && Contains seg k2 = false.
Proof.
  unfold apart. rewrite forallb_forall. intros Hall Hin.
  apply negb_true_iff, Hall, Hin.
Qed.

Lemma hasParam_segment key w :
  hasParam key w = true ->
  exists seg, In seg (split_amp w) /\ hasValue key seg = true.
Proof. unfold hasParam. rewrite existsb_exists. auto. Qed.

(** ** What a link carries *)

Lemma link_offset_digits w L o :
  apart "page[limit]=" "page[offset]=" w = true ->
  hasParam "page[offset]=" w = true -> 0 <= o ->
  FindDigits "page[offset]=" (rewriteURL w L o) = Some (FormatInt o).
Proof.
  intros Hap Hhas Ho. rewrite rewriteURL_concat.
  apply FindDigits_concat_value; [discriminate | reflexivity | |].
  - intros s ds (seg & <- & Hin)%in_map_iff.
    apply segment_reads_offset; [eapply segment_no_amp; eassumption | exact Ho].
  - destruct (hasParam_segment _ _ Hhas) as (seg & Hin & Hv).
    exists (rewriteURL seg L o).
    split; [apply in_map_iff; exists seg; split; [reflexivity | exact Hin]|].
    apply segment_reads_offset;
      [eapply segment_no_amp; eassumption | exact Ho | | exact Hv].
    eapply apart_segment; eassumption.
Qed.

Lemma link_limit_digits w L o :
  apart "page[limit]=" "page[offset]=" w = true ->
  hasParam "page[limit]=" w = true -> 0 <= L ->
  FindDigits "page[limit]=" (rewriteURL w L o) = Some (FormatInt L).
Proof.
  intros Hap Hhas HL. rewrite rewriteURL_concat.
  apply FindDigits_concat_value; [discriminate | reflexivity | |].
  - intros s ds (seg & <- & Hin)%in_map_iff.
    apply segment_reads_limit;
      [eapply segment_no_amp; eassumption | exact HL |].
    eapply apart_segment; eassumption.
  - destruct (hasParam_segment _ _ Hhas) as (seg & Hin & Hv).
    exists (rewriteURL seg L o).
    split; [apply in_map_iff; exists seg; split; [reflexivity | exact Hin]|].
    apply segment_reads_limit;
      [eapply segment_no_amp; eassumption | exact HL | | exact Hv].
    eapply apart_segment; eassumption.
Qed.

Lemma link_Limit_digits w L o :
  apart "page[Limit]=" "page[limit]=" w = true ->
  apart "page[Limit]=" "page[offset]=" w = true ->
  FindDigits "page[Limit]=" (rewriteURL w L o) = FindDigits "page[Limit]=" w.
Proof.
  intros Hl Ho. rewrite rewriteURL_concat.
  rewrite <- (concat_split w) at 2.
  apply FindDigits_concat_map; [discriminate | reflexivity|].
  intros seg Hin. apply segment_reads_Limit; eapply apart_segment; eassumption.
Qed.

(** A link of a URL whose two parameters are apart and have values reads
    back as the limit and the offset written into it. *)
Lemma link_reads_offset w L o :
  apart "page[limit]=" "page[offset]=" w = true ->
  hasParam "page[offset]=" w = true -> 0 <= o <= Int64.max_int ->
  getPageParam "offset" (rewriteURL w L o) = o.
Proof.
  intros Hap Hhas [Ho Hmax]. unfold getPageParam.
  change ("page[" +:+ "offset" +:+ "]=") with "page[offset]=".
  rewrite link_offset_digits by assumption. apply Atoi_FormatInt. split; assumption.
Qed.

Lemma link_reads_limit w L o :
  apart "page[limit]=" "page[offset]=" w = true ->
  hasParam "page[limit]=" w = true -> 0 <= L <= Int64.max_int ->
  getPageParam "limit" (rewriteURL w L o) = L.
Proof.
  intros Hap Hhas [HL Hmax]. unfold getPageParam.
  change ("page[" +:+ "limit" +:+ "]=") with "page[limit]=".
  rewrite link_limit_digits by assumption. apply Atoi_FormatInt. split; assumption.
Qed.

(** ** Values that are not numbers *)

Lemma FindDigits_digit key s ds :
  FindDigits key s = Some ds ->
  exists d, is_digit d = true /\ Contains s (key +:+ String d "") = true.
Proof.
  induction s as [|c s IH]; [discriminate|].
  cbn [FindDigits].
  assert (FindDigits key s = Some ds ->
          exists d, is_digit d = true /\
                    Contains (String c s) (key +:+ String d "") = true) as Hnext.
  { intros Hs. destruct (IH Hs) as (d & Hd & Hc).
    exists d. split; [exact Hd|]. rewrite Contains_cons, Hc. apply orb_true_r. }
  destruct (HasPrefix (String c s) key) eqn:Hp; cbn [andb]; [|exact Hnext].
  destruct (negb (take_while is_digit (drop (String.length key) (String c s)) =? "")%string)
    eqn:Hn; [|exact Hnext].
  intros _.
  destruct (drop (String.length key) (String c s)) as [|d r] eqn:Hdrop;
    [discriminate|].
  cbn [take_while] in Hn. destruct (is_digit d) eqn:Hd; [|discriminate].
  exists d. split; [exact Hd|].
  rewrite Contains_cons, HasPrefix_app_r, Hp, Hdrop, HasPrefix_cons, Ascii.eqb_refl.
  rewrite HasPrefix_empty. reflexivity.
Qed.

Lemma getPageParam_not_numeric name url :
  (forall d, is_digit d = true ->
     Contains url (("page[" +:+ name +:+ "]=") +:+ String d "") = false) ->
  getPageParam name url = 0.
Proof.
  intros Hno. unfold getPageParam.
  destruct (FindDigits _ url) as [ds|] eqn:E; [|reflexivity].
  destruct (FindDigits_digit _ _ _ E) as (d & Hd & Hc).
  rewrite (Hno d Hd) in Hc. discriminate.
Qed.

(** A test that fails for each of the ten digits fails for every digit. *)
Lemma digits_absent (P : ascii -> bool) :
  P "0"%char = false -> P "1"%char = false -> P "2"%char = false ->
  P "3"%char = false -> P "4"%char = false -> P "5"%char = false ->
  P "6"%char = false -> P "7"%char = false -> P "8"%char = false ->
  P "9"%char = false ->
  forall d, is_digit d = true -> P d = false.
Proof.
  intros H0 H1 H2 H3 H4 H5 H6 H7 H8 H9 d Hd.
  destruct d as [[] [] [] [] [] [] [] []]; vm_compute in Hd; try discriminate;
    assumption.
Qed.

(** ** When a call panics *)

Section Panic.
Context `{Platform}.

Lemma effectiveLimit_of_zero p : Limit p = 0 -> effectiveLimit p = 0.
Proof.
  intros Hz. unfold effectiveLimit, Float64.Min. rewrite Hz.
  change (Float64.of_int64 0) with 0.
  pose proof (of_int64_nonneg _ (getPageParam_nonneg "Limit" (workingURL p))).
  fold (extractedLimit p) in *.
  rewrite Z.min_r by assumption.
  rewrite to_int64_in_range by (unfold Int64.min_int, Int64.max_int; lia).
  reflexivity.
Qed.

Lemma effectiveLimit_fallback p :
  0 <= Limit p -> extractedLimit p = 0 -> effectiveLimit p = Limit p.
Proof.
  intros Hl He. unfold effectiveLimit, Float64.Min. rewrite He.
  change (Float64.of_int64 0) with 0.
  rewrite Z.min_l by (apply of_int64_nonneg; assumption).
  rewrite to_int64_in_range by (unfold Int64.min_int, Int64.max_int; lia).
  reflexivity.
Qed.

Lemma effectiveOffset_of_zero p : extractedOffset p = 0 -> effectiveOffset p = 0.
Proof.
  intros He. unfold effectiveOffset, Float64.Max. rewrite He.
  change (Float64.of_int64 0) with 0. rewrite Z.max_id.
  apply to_int64_in_range. unfold Int64.min_int, Int64.max_int. lia.
Qed.

Lemma panics_iff p :
  (GeneratePagination p).1 = Panics <->
  Limit p = 0 /\ 0 <= Total p /\ Int64.add (effectiveOffset p) 0 < Total p.
Proof.
  destruct (Z.lt_ge_cases (Total p) (Limit p)) as [Hlt|Hle].
  - rewrite GeneratePagination_short by assumption. cbn.
    split; [discriminate | intros (Hz & Ht & _); lia].
  - rewrite GeneratePagination_long by assumption. cbn [fst].
    destruct (dividesByZero p) eqn:Hd.
    + split; [intros _ | reflexivity].
      pose proof (dividesByZero_Limit p Hd) as Hz.
      unfold dividesByZero in Hd. apply andb_true_iff in Hd as [Hlast HL].
      apply Z.eqb_eq in HL. rewrite HL in Hlast. apply Z.ltb_lt in Hlast.
      repeat split; [exact Hz | lia | exact Hlast].
    + split; [discriminate|]. intros (Hz & Ht & Hlast).
      unfold dividesByZero in Hd. rewrite (effectiveLimit_of_zero p Hz) in Hd.
      apply andb_false_iff in Hd as [Hd|Hd]; [apply Z.ltb_ge in Hd; lia | discriminate].
Qed.

End Panic.

(** * The claims *)

Section Claims.
Context `{Platform}.

(** C1. The limit is extracted with the key [page[Limit]=], capital L, while
    the URL is normalised and rewritten with [page[limit]]. At
    url="/?page[limit]=50&page[offset]=100", limit=100, total=334 the value 50
    carried by the URL is not read: the extraction gives 0, the effective limit
    falls back to 100 instead of min(50, 100) = 50, and the three emitted links
    carry page[limit]=100. *)
Theorem C1_url_limit_not_read :
  let p := mkOffsetPagination "/?page[limit]=50&page[offset]=100" 100 334 in
  Z.min (getPageParam "limit" (workingURL p)) (Limit p) = 50 /\
  extractedLimit p = 0 /\
  effectiveLimit p = 100 /\
  GeneratePagination p =
    (Returns (Some {[ KeyFirstPage := "/?page[limit]=100&page[offset]=0";
                      KeyNextPage := "/?page[limit]=100&page[offset]=200";
                      KeyLastPage := "/?page[limit]=100&page[offset]=300" ]}),
     p).
Proof. vm_compute. repeat split; reflexivity. Qed.

(** C2 (amended). The call leaves the request's limit and total as they
    were. It leaves the URL as it was when total < limit and when the URL
    already contains both "page[limit]" and "page[offset]"; otherwise the
    request's URL field is overwritten with the working URL, the input URL
    followed by the parameters appended to it. Every emitted link is a
    rewritten copy of that working URL, and the stored working URL itself is
    not rewritten. *)
Theorem C2_receiver_after_call (p : OffsetPagination) :
  let p' := (GeneratePagination p).2 in
  Limit p' = Limit p /\ Total p' = Total p /\
  (Total p < Limit p -> URL p' = URL p) /\
  (Contains (URL p) "page[limit]" = true ->
   Contains (URL p) "page[offset]" = true -> URL p' = URL p) /\
  (Limit p <= Total p ->
   URL p' = workingURL p /\
   (exists suffix, workingURL p = URL p +:+ suffix) /\
   forall links k u,
     (GeneratePagination p).1 = Returns (Some links) ->
     links !! k = Some u ->
     exists o, u = rewriteURL (workingURL p) (effectiveLimit p) o).
Proof.
  cbn zeta.
  assert (Contains (URL p) "page[limit]" = true ->
          Contains (URL p) "page[offset]" = true -> normalized p = p) as Hsame.
  { intros Hl Ho. unfold normalized. rewrite Hl. cbn. rewrite Ho. reflexivity. }
  destruct (Z.lt_ge_cases (Total p) (Limit p)) as [Hlt|Hle].
  - rewrite GeneratePagination_short by assumption. cbn.
    repeat split; try reflexivity; intros; lia.
  - rewrite GeneratePagination_long by assumption. cbn.
    split; [apply normalized_Limit|]. split; [apply normalized_Total|].
    split; [intros; lia|].
    split; [intros Hl Ho; rewrite Hsame by assumption; reflexivity|].
    intros _. split; [reflexivity|]. split.
    + unfold workingURL, normalized, appendToURL.
      repeat match goal with |- context [if ?b then _ else _] => destruct b end;
        cbn; rewrite ?app_assoc_s; eexists; try reflexivity.
      symmetry; apply app_empty_r.
    + intros links k u Hr Hk.
      destruct (dividesByZero p); [discriminate|].
      injection Hr as <-. rewrite linkSet_lookup in Hk.
      destruct (targetOffset _ _ _ k) as [o|]; [|discriminate].
      exists o. cbn in Hk. congruence.
Qed.

(** C3 (amended). Every call either returns nil (exactly when total < limit),
    or panics (only with limit = 0), or returns a link set of at most four
    entries whose keys are among first, previous, next and last. That set has
    at least one entry whenever the effective offset is positive or the
    effective offset plus the effective limit is below the total; it can be
    present and empty otherwise. *)
Theorem C3_at_most_four_links (p : OffsetPagination) :
  (Total p < Limit p /\ GeneratePagination p = (Returns None, p)) \/
  (Limit p <= Total p /\ Limit p = 0 /\
   GeneratePagination p = (Panics, normalized p)) \/
  (Limit p <= Total p /\
   exists links : Links,
     GeneratePagination p = (Returns (Some links), normalized p) /\
     (size links <= 4)%nat /\
     dom links ⊆ ({[KeyFirstPage; KeyPreviousPage; KeyNextPage; KeyLastPage]} : gset string) /\
     (0 < effectiveOffset p \/
      Int64.add (effectiveOffset p) (effectiveLimit p) < Total p ->
      (1 <= size links)%nat)).
Proof.
  destruct (Z.lt_ge_cases (Total p) (Limit p)) as [Hlt|Hle].
  { left. split; [assumption | apply GeneratePagination_short; assumption]. }
  right. rewrite GeneratePagination_long by assumption.
  destruct (dividesByZero p) eqn:Hd.
  { left. repeat split; [assumption | apply dividesByZero_Limit; assumption]. }
  right. split; [assumption|].
  eexists; split; [reflexivity|].
  split; [apply linkSet_size|]. split; [apply linkSet_dom|].
  set (L := effectiveLimit p). set (O := effectiveOffset p).
  intros Hsome.
  assert (exists k u, linkSet (workingURL p) (Total p) L O !! k = Some u)
    as (k & u & Hk).
  { destruct Hsome as [Hpos|Hlast].
    - exists KeyFirstPage. eexists. rewrite linkSet_lookup.
      unfold targetOffset. rewrite decide_True by reflexivity.
      destruct (Z.ltb_spec 0 O); [reflexivity | lia].
    - exists KeyLastPage. eexists. rewrite linkSet_lookup.
      unfold targetOffset.
      destruct keys_distinct as (_ & _ & H3 & _ & H5 & H6).
      rewrite decide_False by congruence.
      rewrite decide_False by congruence.
      rewrite decide_False by congruence.
      rewrite decide_True by reflexivity.
      destruct (Z.ltb_spec (Int64.add O L) (Total p)); [reflexivity | lia]. }
  destruct (size (linkSet (workingURL p) (Total p) L O)) eqn:Hs; [|lia].
  apply map_size_empty_iff in Hs. rewrite Hs, lookup_empty in Hk. discriminate.
Qed.

(** C4 (amended). For every request past the short-circuit the call panics
    (only with limit = 0) or returns a link set in which the [next] link is
    present if and only if
    effectiveOffset + effectiveLimit < total - effectiveLimit in the method's
    int64 arithmetic, which is the arithmetic of the integers whenever the
    sum and the difference fit an int64; within one page-width of the end
    (total - limit <= offset + limit < total) there is then no [next] link
    while there is a [last] link. When present, the link has the segments of
    the working URL, in each of which a non-empty value behind page[limit]=
    is replaced by the effective limit and a non-empty value behind
    page[offset]= by effectiveOffset + effectiveLimit. When the two
    parameters are in separate segments of the working URL, a page[offset]
    that has a value there is read back from the link as
    effectiveOffset + effectiveLimit, and a page[limit] that has a value as
    the effective limit. *)
Theorem C4_next_link (p : OffsetPagination) :
  Limit p <= Total p ->
  let L := effectiveLimit p in
  let O := effectiveOffset p in
  let T := Total p in
  let w := workingURL p in
  ((GeneratePagination p).1 = Panics /\ Limit p = 0) \/
  exists links : Links,
    GeneratePagination p = (Returns (Some links), normalized p) /\
    (is_Some (links !! KeyNextPage) <-> Int64.add O L < Int64.sub T L) /\
    (Int64.in_range (O + L) -> Int64.in_range (T - L) ->
     Int64.add O L = O + L /\ Int64.sub T L = T - L /\
     (is_Some (links !! KeyNextPage) <-> O + L < T - L) /\
     (T - L <= O + L < T ->
      links !! KeyNextPage = None /\ is_Some (links !! KeyLastPage))) /\
    (forall u, links !! KeyNextPage = Some u ->
       split_amp u =
         map (fun seg =>
                segReplace "page[offset]="
                  ("page[offset]=" +:+ FormatInt (Int64.add O L))
                  (segReplace "page[limit]=" ("page[limit]=" +:+ FormatInt L) seg))
             (split_amp w) /\
       (apart "page[limit]=" "page[offset]=" w = true ->
        (hasParam "page[offset]=" w = true -> 0 <= Int64.add O L ->
         getPageParam "offset" u = Int64.add O L) /\
        (hasParam "page[limit]=" w = true -> 0 <= L <= Int64.max_int ->
         getPageParam "limit" u = L))).
Proof.
  intros Hle L O T w.
  rewrite GeneratePagination_long by assumption.
  destruct (dividesByZero p) eqn:Hd.
  { left. split; [reflexivity | apply dividesByZero_Limit, Hd]. }
  right. eexists; split; [reflexivity|]. fold L O T w.
  destruct keys_distinct as (H1 & H2 & H3 & H4 & H5 & H6).
  rewrite !linkSet_lookup. unfold targetOffset.
  rewrite !(decide_False (P := KeyNextPage = KeyFirstPage)) by congruence.
  rewrite !(decide_False (P := KeyNextPage = KeyPreviousPage)) by congruence.
  rewrite !(decide_True (P := KeyNextPage = KeyNextPage)) by reflexivity.
  rewrite !(decide_False (P := KeyLastPage = KeyFirstPage)) by congruence.
  rewrite !(decide_False (P := KeyLastPage = KeyPreviousPage)) by congruence.
  rewrite !(decide_False (P := KeyLastPage = KeyNextPage)) by congruence.
  rewrite !(decide_True (P := KeyLastPage = KeyLastPage)) by reflexivity.
  assert (is_Some (rewriteURL w L <$>
            (if Int64.add O L <? Int64.sub T L then Some (Int64.add O L) else None))
          <-> Int64.add O L < Int64.sub T L) as Hiff.
  { destruct (Z.ltb_spec (Int64.add O L) (Int64.sub T L)); cbn; split; intros Hx;
      try lia; try (eexists; reflexivity). destruct Hx; discriminate. }
  split; [exact Hiff|]. split.
  - intros Hadd%add_in_range Hsub%sub_in_range.
    split; [exact Hadd|]. split; [exact Hsub|].
    rewrite Hadd, Hsub in *. split; [exact Hiff|].
    intros [Hn Hl].
    destruct (Z.ltb_spec (O + L) (T - L)); [lia|].
    destruct (Z.ltb_spec (O + L) T); [|lia].
    cbn. split; [reflexivity | eexists; reflexivity].
  - intros u Hu.
    destruct (Int64.add O L <? Int64.sub T L); [|discriminate].
    cbn in Hu. injection Hu as <-.
    split; [apply rewriteURL_segments|].
    intros Hap. split.
    + intros Hhas Hpos. apply link_reads_offset; try assumption.
      split; [exact Hpos|]. apply wrap64_range.
    + intros Hhas HL. apply link_reads_limit; assumption.
Qed.


(** C6 (amended). Every emitted link has the ['&']-separated segments of the
    working URL, as many and in the same order, each rewritten on its own: a
    segment that contains neither "page[limit]=" nor "page[offset]=" is in
    the link verbatim at the same position, and in any other segment only the
    text behind such a key, up to the end of the segment, is replaced by the
    new value. When the input URL has a query string, its segments are the
    first segments of the working URL. *)
Theorem C6_segments_preserved (p : OffsetPagination) (links : Links) (k u : string) :
  Limit p <= Total p ->
  (GeneratePagination p).1 = Returns (Some links) ->
  links !! k = Some u ->
  (exists o,
     split_amp u =
       map (fun seg =>
              segReplace "page[offset]=" ("page[offset]=" +:+ FormatInt o)
                (segReplace "page[limit]="
                   ("page[limit]=" +:+ FormatInt (effectiveLimit p)) seg))
           (split_amp (workingURL p))) /\
  (forall i seg,
     split_amp (workingURL p) !! i = Some seg ->
     Contains seg "page[limit]=" = false ->
     Contains seg "page[offset]=" = false ->
     split_amp u !! i = Some seg) /\
  (forall key v seg,
     segReplace key (key +:+ v) seg = seg \/
     exists a b, seg = a +:+ key +:+ b /\
                 segReplace key (key +:+ v) seg = a +:+ key +:+ v) /\
  (Contains (URL p) "?" = true ->
   exists extra, split_amp (workingURL p) = (split_amp (URL p) ++ extra)%list).
Proof.
  intros Hle Hr Hk.
  rewrite GeneratePagination_long in Hr by assumption. cbn [fst] in Hr.
  destruct (dividesByZero p); [discriminate|]. injection Hr as <-.
  rewrite linkSet_lookup in Hk.
  destruct (targetOffset _ _ _ k) as [o|]; [|discriminate].
  injection Hk as <-.
  assert (split_amp (rewriteURL (workingURL p) (effectiveLimit p) o) =
          map (fun seg =>
              segReplace "page[offset]=" ("page[offset]=" +:+ FormatInt o)
                (segReplace "page[limit]="
                   ("page[limit]=" +:+ FormatInt (effectiveLimit p)) seg))
           (split_amp (workingURL p))) as Hsegs.
  { unfold rewriteURL.
    rewrite !replaceParam_segments by (auto using FormatInt_no_amp).
    rewrite map_map. reflexivity. }
  split; [exists o; exact Hsegs|].
  split; [|split; [apply segReplace_shape | apply workingURL_segments]].
  intros i seg Hi Hlim Hoff. rewrite Hsegs, list_lookup_fmap, Hi. cbn.
  rewrite (segReplace_without _ _ _ Hlim), (segReplace_without _ _ _ Hoff).
  reflexivity.
Qed.

(** C7. For every request with total < limit the call returns the nil link
    set (no link set at all, not an empty one) whatever the URL holds, and
    the request is left as it was. *)
Theorem C7_below_threshold_returns_none (p : OffsetPagination) :
  Total p < Limit p -> GeneratePagination p = (Returns None, p).
Proof. apply GeneratePagination_short. Qed.

(** C8. Past the short-circuit the request is left holding the working URL
    of the specification: when the input URL does not contain the substring
    "page[limit]", "page[limit]=<limit>" is appended (after '?' when the URL
    holds no '?', after '&' otherwise), and independently, when the input URL
    does not contain "page[offset]", "page[offset]=0" is appended the same
    way after it; every emitted link is a rewrite of that URL. With url="/",
    limit=100, total=334 the links are next="/?page[limit]=100&page[offset]=100"
    and last with offset 300. *)
Theorem C8_working_url (p : OffsetPagination) :
  workingURL p = specWorkingURL (URL p) (Limit p) /\
  (Limit p <= Total p ->
   (GeneratePagination p).2 = set_URL p (specWorkingURL (URL p) (Limit p)) /\
   forall links k u,
     (GeneratePagination p).1 = Returns (Some links) ->
     links !! k = Some u ->
     exists o, u = rewriteURL (specWorkingURL (URL p) (Limit p))
                              (effectiveLimit p) o) /\
  GeneratePagination (mkOffsetPagination "/" 100 334) =
    (Returns (Some {[ KeyNextPage := "/?page[limit]=100&page[offset]=100";
                      KeyLastPage := "/?page[limit]=100&page[offset]=300" ]}),
     mkOffsetPagination "/?page[limit]=100&page[offset]=0" 100 334).
Proof.
  assert (workingURL p = specWorkingURL (URL p) (Limit p)) as HW.
  { unfold workingURL. rewrite workingURL_spec. reflexivity. }
  split; [exact HW|]. split; [|vm_compute; reflexivity].
  intros Hle. rewrite GeneratePagination_long by assumption. cbn [fst snd].
  split; [apply workingURL_spec|].
  intros links k u Hr Hk.
  destruct (dividesByZero p); [discriminate|].
  injection Hr as <-. rewrite linkSet_lookup in Hk.
  destruct (targetOffset _ _ _ k) as [o|]; [|discriminate].
  exists o. cbn in Hk. rewrite <- HW. congruence.
Qed.

(** C9 (amended). A call panics exactly when limit = 0, total >= 0 and the
    effective offset, in int64 arithmetic, is below the total. Under the
    precondition that limit >= 1 whenever total > 0, the call returns
    whenever the offset read from the URL is below 2^63 - 512, and the
    divisor of the last-page computation, the effective limit, is then other
    than 0 wherever that computation is reached, and at least 1 for a
    configured limit from 0 to below 2^63 - 512; a call that panics under
    the precondition has limit = 0, total = 0 and a URL offset of at least
    2^63 - 512, whose float64 conversion does not go back into an int64. A
    parameter whose key is nowhere followed by a digit is read as 0: the
    effective offset is then 0, and the effective limit the configured
    one. *)
Theorem C9_no_failure (p : OffsetPagination) :
  let L := effectiveLimit p in
  let O := effectiveOffset p in
  ((GeneratePagination p).1 = Panics <->
   Limit p = 0 /\ 0 <= Total p /\ Int64.add O 0 < Total p) /\
  ((0 < Total p -> 1 <= Limit p) ->
   (extractedOffset p < 2 ^ 63 - 512 ->
    (exists r, (GeneratePagination p).1 = Returns r) /\
    (Limit p <= Total p -> Int64.add O L < Total p ->
     L <> 0 /\ (0 <= Limit p < 2 ^ 63 - 512 -> 1 <= L))) /\
   ((GeneratePagination p).1 = Panics ->
    Limit p = 0 /\ Total p = 0 /\ 2 ^ 63 - 512 <= extractedOffset p)) /\
  (forall name url,
     (forall d, is_digit d = true ->
        Contains url (("page[" +:+ name +:+ "]=") +:+ String d "") = false) ->
     getPageParam name url = 0) /\
  ((forall d, is_digit d = true ->
      Contains (workingURL p) ("page[offset]=" +:+ String d "") = false) ->
   O = 0) /\
  (0 <= Limit p ->
   (forall d, is_digit d = true ->
      Contains (workingURL p) ("page[Limit]=" +:+ String d "") = false) ->
   L = Limit p).
Proof.
  intros L O.
  assert ((0 < Total p -> 1 <= Limit p) ->
          (GeneratePagination p).1 = Panics ->
          Limit p = 0 /\ Total p = 0 /\ 2 ^ 63 - 512 <= extractedOffset p) as Hrest.
  { intros Hpre (Hz & Ht & Hlast)%panics_iff.
    assert (Total p = 0) as HT by lia.
    split; [exact Hz|]. split; [exact HT|].
    destruct (Z.lt_ge_cases (extractedOffset p) (2 ^ 63 - 512)) as [Hco|]; [|assumption].
    apply converts_back_below in Hco.
    pose proof (effectiveOffset_nonneg p Hco) as HO.
    unfold Int64.add in Hlast. rewrite wrap64_in_range in Hlast
      by (unfold Int64.in_range, Int64.min_int, Int64.max_int in *; lia).
    lia. }
  split; [apply panics_iff|]. split; [|split; [|split]].
  - intros Hpre. split; [|exact (Hrest Hpre)].
    intros Hco.
    assert (exists r, (GeneratePagination p).1 = Returns r) as Hret.
    { destruct ((GeneratePagination p).1) as [r|] eqn:Hr; [eexists; reflexivity|].
      destruct (Hrest Hpre eq_refl) as (_ & _ & Hbig). lia. }
    split; [exact Hret|].
    intros Hle Hreach.
    assert (L <> 0) as HL.
    { intros HL0. destruct Hret as [r Hr].
      rewrite GeneratePagination_long in Hr by assumption. cbn [fst] in Hr.
      unfold dividesByZero in Hr. fold L O in Hr. rewrite HL0 in Hr, Hreach.
      destruct (Z.ltb_spec (Int64.add O 0) (Total p)); [discriminate | lia]. }
    split; [exact HL|].
    intros [Hl Hcl%converts_back_below].
    apply effectiveLimit_positive; try assumption.
    intros Hz. apply HL. apply effectiveLimit_of_zero, Hz.
  - apply getPageParam_not_numeric.
  - intros Hno. apply effectiveOffset_of_zero.
    apply (getPageParam_not_numeric "offset"), Hno.
  - intros Hl Hno. apply effectiveLimit_fallback; [exact Hl|].
    apply (getPageParam_not_numeric "Limit"), Hno.
Qed.

(** C10 (amended). Take a link emitted for a request whose working URL keeps
    the keys page[limit]=, page[offset]= and page[Limit]= (the key the limit
    is read with) in separate segments and has a value for page[offset], and
    let o be the link's target offset, 0 <= o < 2^53. The link reads back as
    offset o, and the calculator run again on the link's URL with the same
    limit and total has the effective offset o and the same effective limit:
    it panics when that limit is 0 and o is below the total, and otherwise
    (always when limit <> 0) returns the link set of the four threshold
    conditions applied to o, with the corresponding target offsets. *)
Theorem C10_rerun_on_emitted_link (p : OffsetPagination) (links : Links) (k u : string) :
  (GeneratePagination p).1 = Returns (Some links) ->
  links !! k = Some u ->
  let w := workingURL p in
  let L := effectiveLimit p in
  apart "page[limit]=" "page[offset]=" w = true ->
  apart "page[Limit]=" "page[limit]=" w = true ->
  apart "page[Limit]=" "page[offset]=" w = true ->
  hasParam "page[offset]=" w = true ->
  exists o,
    targetOffset (Total p) L (effectiveOffset p) k = Some o /\
    (0 <= o < 2 ^ 53 ->
     let q := mkOffsetPagination u (Limit p) (Total p) in
     getPageParam "offset" u = o /\
     effectiveOffset q = o /\
     effectiveLimit q = L /\
     GeneratePagination q =
       (if (Int64.add o L <? Total p) && (L =? 0) then Panics
        else Returns (Some (linkSet (workingURL q) (Total p) L o)),
        normalized q) /\
     (Limit p <> 0 ->
      (GeneratePagination q).1 =
        Returns (Some (linkSet (workingURL q) (Total p) L o))) /\
     forall k',
       linkSet (workingURL q) (Total p) L o !! k' =
       rewriteURL (workingURL q) L <$> targetOffset (Total p) L o k').
Proof.
  intros Hr Hk w L Hap HapL HapO Hhas.
  assert (Limit p <= Total p) as Hle.
  { destruct (Z.lt_ge_cases (Total p) (Limit p)) as [Hlt|]; [|assumption].
    rewrite GeneratePagination_short in Hr by assumption. discriminate. }
  rewrite GeneratePagination_long in Hr by assumption. cbn [fst] in Hr.
  destruct (dividesByZero p); [discriminate|]. injection Hr as <-.
  fold w L in Hk. rewrite linkSet_lookup in Hk.
  destruct (targetOffset (Total p) L (effectiveOffset p) k) as [o|]; [|discriminate].
  cbn in Hk. injection Hk as <-.
  exists o. split; [reflexivity|].
  intros [Ho Hobig] q. set (u := rewriteURL w L o) in *.
  assert (FindDigits "page[offset]=" u = Some (FormatInt o)) as Hread
    by (apply link_offset_digits; assumption).
  assert (FindDigits "page[Limit]=" u = FindDigits "page[Limit]=" w) as Hcap
    by (apply link_Limit_digits; assumption).
  assert (Contains u "page[offset]" = true) as Hoff.
  { apply FindDigits_Contains in Hread.
    apply (Contains_shorter u "page[offset]" "="). exact Hread. }
  assert (FindDigits "page[offset]=" (workingURL q) = Some (FormatInt o) /\
          FindDigits "page[Limit]=" (workingURL q) = FindDigits "page[Limit]=" w)
    as [Hreadq Hcapq].
  { destruct (rerun_workingURL u (Limit p) (Total p) Hoff)
      as [E|(c & rest & Hdig & Hc & E & Hrest)]; fold q in E; rewrite E;
      [split; assumption|].
    split.
    - rewrite FindDigits_app_sep, Hread; [reflexivity | discriminate | | exact Hdig].
      destruct Hc as [-> | ->]; reflexivity.
    - rewrite FindDigits_app_sep, Hcap; [| discriminate | | exact Hdig].
      + destruct (FindDigits "page[Limit]=" w); [reflexivity|].
        destruct (FindDigits "page[Limit]=" rest) as [ds|] eqn:E'; [|reflexivity].
        apply FindDigits_Contains in E'. congruence.
      + destruct Hc as [-> | ->]; reflexivity. }
  assert (getPageParam "offset" u = o) as Hget.
  { unfold getPageParam. change ("page[" +:+ "offset" +:+ "]=") with "page[offset]=".
    rewrite Hread. apply Atoi_FormatInt. unfold Int64.max_int. lia. }
  assert (effectiveOffset q = o) as HOq.
  { unfold effectiveOffset, extractedOffset, getPageParam.
    change ("page[" +:+ "offset" +:+ "]=") with "page[offset]=".
    rewrite Hreadq, Atoi_FormatInt by (unfold Int64.max_int; lia).
    rewrite of_int64_exact by lia. change (Float64.of_int64 0) with 0.
    unfold Float64.Max. rewrite Z.max_l by lia.
    apply to_int64_in_range. unfold Int64.min_int, Int64.max_int. lia. }
  assert (effectiveLimit q = L) as HLq.
  { unfold L, effectiveLimit, extractedLimit, getPageParam.
    change ("page[" +:+ "Limit" +:+ "]=") with "page[Limit]=".
    rewrite Hcapq. reflexivity. }
  assert (GeneratePagination q =
          (if (Int64.add o L <? Total p) && (L =? 0) then Panics
           else Returns (Some (linkSet (workingURL q) (Total p) L o)),
           normalized q)) as Hgp.
  { rewrite (GeneratePagination_long q) by exact Hle.
    unfold dividesByZero. rewrite HOq, HLq. reflexivity. }
  split; [exact Hget|]. split; [exact HOq|]. split; [exact HLq|].
  split; [exact Hgp|]. split.
  - intros Hnz. rewrite Hgp. cbn [fst].
    destruct (Z.eqb_spec L 0) as [HL0|_]; [|rewrite andb_false_r; reflexivity].
    apply effectiveLimit_zero in HL0. contradiction.
  - intros k'. apply linkSet_lookup.
Qed.

End Claims.

(** * Further properties *)

(** ** Containment across concatenation *)

Lemma Contains_prefix (s k : string) : HasPrefix s k = true -> Contains s k = true.
Proof. intros Hp. destruct s; cbn [Contains]; rewrite Hp; reflexivity. Qed.

Lemma HasPrefix_app_l (a b k : string) :
  HasPrefix a k = true -> HasPrefix (a +:+ b) k = true.
Proof.
  intros Hp. apply HasPrefix_split in Hp.
  rewrite Hp, app_assoc_s. apply HasPrefix_app.
Qed.

Lemma Contains_app_l (a b k : string) :
  Contains a k = true -> Contains (a +:+ b) k = true.
Proof.
  induction a as [|c a IH].
  - cbn [Contains]. rewrite orb_false_r. intros Hp.
    apply Contains_prefix. apply (HasPrefix_app_l "" b k Hp).
  - rewrite Contains_cons. intros [Hp|Hc]%orb_true_iff.
    + apply Contains_prefix, HasPrefix_app_l, Hp.
    + rewrite app_cons, Contains_cons, (IH Hc). apply orb_true_r.
Qed.

Lemma Contains_app_r (a b k : string) :
  Contains b k = true -> Contains (a +:+ b) k = true.
Proof.
  intros Hb. induction a as [|c a IH]; [exact Hb|].
  rewrite app_cons, Contains_cons, IH. apply orb_true_r.
Qed.

Section WorkingURL.
Context `{Platform}.

Lemma workingURL_contains p :
  Contains (workingURL p) "page[limit]" = true /\
  Contains (workingURL p) "page[offset]" = true.
Proof.
  unfold workingURL. rewrite workingURL_spec. cbn [URL set_URL].
  unfold specWorkingURL, specAppend.
  assert (forall a x, Contains (a +:+ "page[limit]=" +:+ x) "page[limit]" = true) as Hl.
  { intros a x. apply Contains_app_r, Contains_prefix. reflexivity. }
  assert (forall a, Contains (a +:+ "page[offset]=0") "page[offset]" = true) as Ho.
  { intros a. apply Contains_app_r. reflexivity. }
  destruct (Contains (URL p) "page[limit]") eqn:El,
           (Contains (URL p) "page[offset]") eqn:Eo.
  - split; assumption.
  - split.
    + destruct (Contains (URL p) "?"); apply Contains_app_l, El.
    + destruct (Contains (URL p) "?"); rewrite <- app_assoc_s; apply Ho.
  - split.
    + destruct (Contains (URL p) "?"); rewrite <- app_assoc_s; apply Hl.
    + destruct (Contains (URL p) "?"); apply Contains_app_l, Eo.
  - split.
    + destruct (Contains (URL p) "?");
        match goal with |- context [if ?b then _ else _] => destruct b end;
        apply Contains_app_l; rewrite <- app_assoc_s; apply Hl.
    + destruct (Contains (URL p) "?");
        match goal with |- context [if ?b then _ else _] => destruct b end;
        rewrite <- app_assoc_s; apply Ho.
Qed.

Lemma normalized_idempotent p : normalized (normalized p) = normalized p.
Proof.
  destruct (workingURL_contains p) as [Hl Ho]. unfold workingURL in *.
  unfold normalized at 1. rewrite Hl. cbn [negb]. rewrite Ho. reflexivity.
Qed.

End WorkingURL.

(** ** Target offsets, key by key *)

Lemma targetOffset_first total limit offset :
  targetOffset total limit offset KeyFirstPage = if 0 <? offset then Some 0 else None.
Proof. reflexivity. Qed.

Lemma targetOffset_previous total limit offset :
  targetOffset total limit offset KeyPreviousPage =
  if limit <? offset then Some (Int64.sub offset limit) else None.
Proof. reflexivity. Qed.

Lemma targetOffset_next total limit offset :
  targetOffset total limit offset KeyNextPage =
  if Int64.add offset limit <? Int64.sub total limit
  then Some (Int64.add offset limit) else None.
Proof. reflexivity. Qed.

Lemma targetOffset_last total limit offset :
  targetOffset total limit offset KeyLastPage =
  if Int64.add offset limit <? total
  then Some (lastPageOffset total limit offset) else None.
Proof. reflexivity. Qed.

Lemma is_Some_fmap_if {A B} (f : A -> B) (b : bool) (x : A) :
  is_Some (f <$> (if b then Some x else None)) <-> b = true.
Proof.
  destruct b; cbn; split; intros Hs; try reflexivity; try discriminate.
  - eexists; reflexivity.
  - destruct Hs; discriminate.
Qed.

Section MoreLinks.
Context `{Platform}.

Lemma effectiveLimit_range p :
  0 <= Limit p < 2 ^ 63 - 512 -> 0 <= effectiveLimit p <= Int64.max_int.
Proof.
  intros [Hl Hc]. pose proof (converts_back_below _ Hc) as Hcb.
  unfold Float64.converts_back in Hcb.
  unfold effectiveLimit, Float64.Min.
  pose proof (of_int64_nonneg _ (getPageParam_nonneg "Limit" (workingURL p))) as He.
  pose proof (of_int64_nonneg _ Hl) as Hf.
  fold (extractedLimit p) in He.
  rewrite to_int64_in_range
    by (unfold Int64.min_int, Int64.max_int in *; lia).
  destruct (Z.eqb_spec
    (Z.min (Float64.of_int64 (extractedLimit p)) (Float64.of_int64 (Limit p))) 0);
    unfold Int64.max_int in *; lia.
Qed.

(** X1. Past the short-circuit the call panics (only with limit = 0) or
    returns a link set in which the [first] link is present exactly when the
    effective offset is positive and the [previous] link exactly when the
    effective offset exceeds the effective limit. Each has the segments of
    the working URL with the non-empty values behind page[limit]= and
    page[offset]= replaced. When the two parameters are in separate segments
    of the working URL and have values there, the [first] link reads back as
    offset 0 and the [previous] link as effectiveOffset - effectiveLimit (the
    int64 difference is the integers' whenever it fits an int64), both with
    the effective limit. *)
Theorem first_and_previous_links (p : OffsetPagination) :
  Limit p <= Total p ->
  let L := effectiveLimit p in
  let O := effectiveOffset p in
  let w := workingURL p in
  ((GeneratePagination p).1 = Panics /\ Limit p = 0) \/
  exists links : Links,
    GeneratePagination p = (Returns (Some links), normalized p) /\
    (is_Some (links !! KeyFirstPage) <-> 0 < O) /\
    (is_Some (links !! KeyPreviousPage) <-> L < O) /\
    (forall u, links !! KeyFirstPage = Some u ->
       split_amp u =
         map (fun seg =>
                segReplace "page[offset]=" ("page[offset]=" +:+ FormatInt 0)
                  (segReplace "page[limit]=" ("page[limit]=" +:+ FormatInt L) seg))
             (split_amp w) /\
       (apart "page[limit]=" "page[offset]=" w = true ->
        (hasParam "page[offset]=" w = true -> getPageParam "offset" u = 0) /\
        (hasParam "page[limit]=" w = true -> 0 <= L <= Int64.max_int ->
         getPageParam "limit" u = L))) /\
    (forall u, links !! KeyPreviousPage = Some u ->
       split_amp u =
         map (fun seg =>
                segReplace "page[offset]="
                  ("page[offset]=" +:+ FormatInt (Int64.sub O L))
                  (segReplace "page[limit]=" ("page[limit]=" +:+ FormatInt L) seg))
             (split_amp w) /\
       (Int64.in_range (O - L) -> Int64.sub O L = O - L) /\
       (apart "page[limit]=" "page[offset]=" w = true ->
        (hasParam "page[offset]=" w = true -> Int64.in_range (O - L) ->
         getPageParam "offset" u = O - L) /\
        (hasParam "page[limit]=" w = true -> 0 <= L <= Int64.max_int ->
         getPageParam "limit" u = L))).
Proof.
  intros Hle L O w.
  rewrite GeneratePagination_long by assumption.
  destruct (dividesByZero p) eqn:Hd.
  { left. split; [reflexivity | apply dividesByZero_Limit, Hd]. }
  right. eexists; split; [reflexivity|]. fold L O w.
  rewrite !linkSet_lookup, targetOffset_first, targetOffset_previous.
  rewrite !is_Some_fmap_if, !Z.ltb_lt.
  split; [reflexivity|]. split; [reflexivity|]. split.
  - intros u Hu. destruct (0 <? O); [|discriminate].
    cbn in Hu. injection Hu as <-.
    split; [apply rewriteURL_segments|].
    intros Hap. split.
    + intros Hhas. apply link_reads_offset; try assumption.
      unfold Int64.max_int. lia.
    + intros Hhas HL. apply link_reads_limit; assumption.
  - intros u Hu. destruct (Z.ltb_spec L O) as [Hlt|]; [|discriminate].
    cbn in Hu. injection Hu as <-.
    split; [apply rewriteURL_segments|].
    split; [apply sub_in_range|].
    intros Hap. split.
    + intros Hhas Hin. rewrite <- (sub_in_range _ _ Hin).
      apply link_reads_offset; try assumption.
      rewrite (sub_in_range _ _ Hin). unfold Int64.in_range in Hin. lia.
    + intros Hhas HL. apply link_reads_limit; assumption.
Qed.

(** X2. For 1 <= limit <= total within the int64 range (limit below
    2^63 - 512), a [previous] link never comes without a [first] link and a
    [next] link never comes without a [last] link. *)
Theorem links_come_in_pairs (p : OffsetPagination) :
  1 <= Limit p <= Total p -> Limit p < 2 ^ 63 - 512 -> Total p <= Int64.max_int ->
  exists links : Links,
    GeneratePagination p = (Returns (Some links), normalized p) /\
    (is_Some (links !! KeyPreviousPage) -> is_Some (links !! KeyFirstPage)) /\
    (is_Some (links !! KeyNextPage) -> is_Some (links !! KeyLastPage)).
Proof.
  intros [Hl Hle] Hc HT.
  rewrite GeneratePagination_returns by lia.
  eexists; split; [reflexivity|].
  pose proof (effectiveLimit_range p ltac:(lia)) as HL.
  set (L := effectiveLimit p) in *. set (O := effectiveOffset p).
  rewrite !linkSet_lookup, targetOffset_first, targetOffset_previous,
    targetOffset_next, targetOffset_last.
  rewrite !is_Some_fmap_if, !Z.ltb_lt.
  assert (Int64.sub (Total p) L = Total p - L) as ->.
  { apply wrap64_in_range.
    unfold Int64.in_range, Int64.min_int, Int64.max_int in *. lia. }
  split; lia.
Qed.

Lemma effective_normalized p :
  workingURL (normalized p) = workingURL p /\
  effectiveLimit (normalized p) = effectiveLimit p /\
  effectiveOffset (normalized p) = effectiveOffset p /\
  dividesByZero (normalized p) = dividesByZero p.
Proof.
  assert (workingURL (normalized p) = workingURL p) as HW.
  { unfold workingURL. rewrite normalized_idempotent. reflexivity. }
  assert (effectiveLimit (normalized p) = effectiveLimit p) as HL.
  { unfold effectiveLimit, extractedLimit. rewrite HW, normalized_Limit. reflexivity. }
  assert (effectiveOffset (normalized p) = effectiveOffset p) as HO.
  { unfold effectiveOffset, extractedOffset. rewrite HW. reflexivity. }
  repeat split; try assumption.
  unfold dividesByZero. rewrite HL, HO, normalized_Total. reflexivity.
Qed.

Lemma GeneratePagination_again p :
  GeneratePagination (GeneratePagination p).2 = GeneratePagination p.
Proof.
  destruct (Z.lt_ge_cases (Total p) (Limit p)) as [Hlt|Hle].
  - rewrite (GeneratePagination_short p Hlt). cbn [snd].
    apply GeneratePagination_short, Hlt.
  - rewrite (GeneratePagination_long p Hle). cbn [snd].
    assert (Limit (normalized p) <= Total (normalized p)) as Hle'
      by (rewrite normalized_Limit, normalized_Total; lia).
    rewrite (GeneratePagination_long (normalized p) Hle').
    destruct (effective_normalized p) as (-> & -> & -> & ->).
    rewrite normalized_idempotent, normalized_Total. reflexivity.
Qed.

(** X3. Calling the method again on the receiver it left behind gives the
    same result and leaves that receiver as it is: past the short-circuit the
    receiver's URL holds both "page[limit]" and "page[offset]", so nothing is
    appended a second time. *)
Theorem second_call_same (p : OffsetPagination) :
  GeneratePagination (GeneratePagination p).2 = GeneratePagination p /\
  (Limit p <= Total p ->
   Contains (URL (GeneratePagination p).2) "page[limit]" = true /\
   Contains (URL (GeneratePagination p).2) "page[offset]" = true).
Proof.
  split; [apply GeneratePagination_again|].
  intros Hle. rewrite GeneratePagination_long by assumption. cbn [snd].
  apply workingURL_contains.
Qed.

(** X4. A request whose URL does not contain "page[offset]" is at offset 0:
    the appended "page[offset]=0" is what is read, the effective offset is 0
    and no [first] link is emitted. *)
Theorem missing_offset_is_first_page (p : OffsetPagination) :
  Contains (URL p) "page[offset]" = false ->
  extractedOffset p = 0 /\ effectiveOffset p = 0 /\
  (Limit p <= Total p ->
   forall links : Links,
     (GeneratePagination p).1 = Returns (Some links) ->
     links !! KeyFirstPage = None).
Proof.
  intros Hno.
  assert (extractedOffset p = 0) as He.
  { unfold extractedOffset, getPageParam, workingURL. rewrite workingURL_spec.
    cbn [URL set_URL]. unfold specWorkingURL. rewrite Hno.
    change ("page[" +:+ "offset" +:+ "]=") with "page[offset]=".
    set (u := if Contains (URL p) "page[limit]" then URL p else _).
    assert (Contains u "page[offset]" = false) as Hu.
    { unfold u. destruct (Contains (URL p) "page[limit]"); [exact Hno|].
      rewrite Contains_offset_after_append. exact Hno. }
    assert (FindDigits "page[offset]=" u = None) as Hf.
    { destruct (FindDigits "page[offset]=" u) as [ds|] eqn:E; [|reflexivity].
      apply FindDigits_Contains in E.
      apply (Contains_shorter u "page[offset]" "=") in E. congruence. }
    unfold specAppend. destruct (Contains u "?"); rewrite app_single;
      rewrite FindDigits_app_sep, Hf by (try discriminate; reflexivity);
      reflexivity. }
  assert (effectiveOffset p = 0) as HO.
  { unfold effectiveOffset. rewrite He. unfold Float64.Max.
    change (Float64.of_int64 0) with 0. cbn [Z.max Z.compare].
    apply to_int64_in_range. unfold Int64.min_int, Int64.max_int. lia. }
  split; [exact He|]. split; [exact HO|].
  intros Hle links Hr.
  rewrite GeneratePagination_long in Hr by assumption. cbn [fst] in Hr.
  destruct (dividesByZero p); [discriminate|]. injection Hr as <-.
  rewrite linkSet_lookup, targetOffset_first, HO. reflexivity.
Qed.

End MoreLinks.

(** ** Values the float64 detour leaves alone *)

Lemma of_int64_large x : 2 ^ 53 <= x -> 2 ^ 53 <= Float64.of_int64 x.
Proof.
  intros Hx. unfold Float64.of_int64.
  rewrite (Z.abs_eq x) by lia.
  destruct (Z.ltb_spec x (2 ^ 53)) as [Hs|_]; [lia|].
  rewrite Z.sgn_pos, Z.mul_1_l by lia.
  assert (0 < x) as Hpos by lia.
  pose proof (Z.log2_spec x Hpos) as [Hlo _].
  assert (53 <= Z.log2 x) as Hl by (apply Z.log2_le_pow2; lia).
  set (e := Z.log2 x - 52) in *.
  replace (Z.log2 x) with (e + 52) in Hlo by (unfold e; lia).
  assert (1 <= e) as He by (unfold e; lia). clearbody e. clear Hl.
  rewrite Z.pow_add_r in Hlo by lia.
  assert (0 < 2 ^ e) as Hp by (apply Z.pow_pos_nonneg; lia).
  assert (2 <= 2 ^ e) as Hp2.
  { change 2 with (2 ^ 1) at 1. apply Z.pow_le_mono_r; lia. }
  pose proof (Z.div_mod x (2 ^ e) ltac:(lia)) as Hdm.
  pose proof (Z.mod_pos_bound x (2 ^ e) Hp) as Hm.
  set (q := x / 2 ^ e) in *. set (r := x mod 2 ^ e) in *.
  assert (2 ^ 52 <= q) as Hq by nia.
  repeat match goal with |- context [if ?b then _ else _] => destruct b end; nia.
Qed.

Section Exact.
Context `{Platform}.

(** X5. For a configured limit below 2^53 in magnitude the conversions
    through float64 lose nothing: the effective limit is the minimum of the
    limit read from the URL and the configured limit, or the configured limit
    when that minimum is 0; and an offset below 2^53 read from the URL is the
    effective offset. *)
Theorem effective_values_exact (p : OffsetPagination) :
  Z.abs (Limit p) < 2 ^ 53 ->
  effectiveLimit p =
    (let m := Z.min (extractedLimit p) (Limit p) in
     if m =? 0 then Limit p else m) /\
  (extractedOffset p < 2 ^ 53 -> effectiveOffset p = extractedOffset p).
Proof.
  intros Hl. split.
  - unfold effectiveLimit, Float64.Min. cbn zeta.
    rewrite (of_int64_exact (Limit p)) by assumption.
    assert (Z.min (Float64.of_int64 (extractedLimit p)) (Limit p) =
            Z.min (extractedLimit p) (Limit p)) as ->.
    { destruct (Z.lt_ge_cases (extractedLimit p) (2 ^ 53)) as [Hs|Hb].
      - pose proof (getPageParam_nonneg "Limit" (workingURL p)) as He.
        fold (extractedLimit p) in He.
        rewrite of_int64_exact by lia. reflexivity.
      - pose proof (of_int64_large _ Hb). lia. }
    rewrite to_int64_in_range; [reflexivity|].
    pose proof (getPageParam_nonneg "Limit" (workingURL p)) as He.
    fold (extractedLimit p) in He.
    unfold Int64.min_int, Int64.max_int. lia.
  - intros Ho.
    pose proof (getPageParam_nonneg "offset" (workingURL p)) as He.
    fold (extractedOffset p) in He.
    unfold effectiveOffset, Float64.Max.
    rewrite of_int64_exact by lia. change (Float64.of_int64 0) with 0.
    rewrite Z.max_l by lia.
    apply to_int64_in_range. unfold Int64.min_int, Int64.max_int. lia.
Qed.

End Exact.

(** ** The last page *)

Lemma specLastOffset_aligned total limit offset :
  0 <= total -> 1 <= limit ->
  total - limit <= specLastOffset total limit offset <= total /\
  specLastOffset total limit offset mod limit = offset mod limit.
Proof.
  intros Ht Hl. unfold specLastOffset, ceil_div.
  pose proof (Z.div_mod (total + limit - 1) limit ltac:(lia)) as Hdm.
  pose proof (Z.mod_pos_bound (total + limit - 1) limit ltac:(lia)) as Hm.
  pose proof (Z.mod_pos_bound offset limit ltac:(lia)) as Hmo.
  set (pages := (total + limit - 1) / limit) in *.
  assert (total - limit <= (pages - 1) * limit < total) as Hp by nia.
  assert (((pages - 1) * limit + offset mod limit) mod limit = offset mod limit) as Hmod.
  { rewrite Z.add_comm, Z.mod_add, Z.mod_mod by lia. reflexivity. }
  destruct (Z.ltb_spec total ((pages - 1) * limit + offset mod limit)).
  - split; [lia|].
    replace ((pages - 1) * limit + offset mod limit - limit)
      with ((pages - 1) * limit + offset mod limit + (-1) * limit) by lia.
    rewrite Z.mod_add by lia. exact Hmod.
  - split; [lia | exact Hmod].
Qed.

Lemma ceil_div_cases total limit :
  1 <= limit ->
  ceil_div total limit =
  if 0 <? total mod limit then total / limit + 1 else total / limit.
Proof.
  intros Hl. unfold ceil_div.
  pose proof (Z.div_mod total limit ltac:(lia)) as Hdm.
  pose proof (Z.mod_pos_bound total limit ltac:(lia)) as Hmt.
  destruct (Z.ltb_spec 0 (total mod limit)).
  - symmetry. apply Z.div_unique with (r := total mod limit - 1); lia.
  - symmetry. apply Z.div_unique with (r := limit - 1); lia.
Qed.

Lemma specLastOffset_at_total total limit offset :
  1 <= limit ->
  (specLastOffset total limit offset = total <->
   total mod limit = offset mod limit /\ total mod limit <> 0).
Proof.
  intros Hl. unfold specLastOffset. rewrite ceil_div_cases by assumption.
  pose proof (Z.div_mod total limit ltac:(lia)) as Hdm.
  pose proof (Z.mod_pos_bound total limit ltac:(lia)) as Hmt.
  pose proof (Z.mod_pos_bound offset limit ltac:(lia)) as Hmo.
  set (q := total / limit) in *. set (rt := total mod limit) in *.
  set (ro := offset mod limit) in *.
  destruct (Z.ltb_spec 0 rt).
  - replace ((q + 1 - 1) * limit) with (total - rt) by nia.
    destruct (Z.ltb_spec total (total - rt + ro)); lia.
  - replace ((q - 1) * limit) with (total - limit) by nia.
    destruct (Z.ltb_spec total (total - limit + ro)); lia.
Qed.

Section LastPage.
Context `{Platform}.

(** X6. When the [last] link is emitted (effective limit at least 1, offset
    not negative, total + limit within int64), its target offset lies between
    total - limit and total and is congruent to the current offset modulo the
    limit. *)
Theorem last_link_within_a_page (p : OffsetPagination) :
  Limit p <= Total p -> 0 <= Total p ->
  1 <= effectiveLimit p -> 0 <= effectiveOffset p ->
  Total p + effectiveLimit p <= Int64.max_int ->
  Int64.add (effectiveOffset p) (effectiveLimit p) < Total p ->
  let L := effectiveLimit p in
  exists (links : Links) (o : Z),
    GeneratePagination p = (Returns (Some links), normalized p) /\
    links !! KeyLastPage = Some (rewriteURL (workingURL p) L o) /\
    Total p - L <= o <= Total p /\
    o mod L = effectiveOffset p mod L.
Proof.
  intros Hle HT HL HO Hfit Hlast L.
  assert (dividesByZero p = false) as Hnz.
  { unfold dividesByZero. destruct (Z.eqb_spec (effectiveLimit p) 0); [lia|].
    apply andb_false_r. }
  rewrite GeneratePagination_long, Hnz by assumption.
  exists (linkSet (workingURL p) (Total p) (effectiveLimit p) (effectiveOffset p)).
  exists (lastPageOffset (Total p) L (effectiveOffset p)).
  split; [reflexivity|]. split.
  - rewrite linkSet_lookup, targetOffset_last.
    apply Z.ltb_lt in Hlast. rewrite Hlast. reflexivity.
  - destruct (lastPageOffset_exact (Total p) L (effectiveOffset p)) as [-> _];
      try assumption.
    apply specLastOffset_aligned; assumption.
Qed.

(** X7. Under the same conditions the [last] link's target offset is the
    total itself, an offset behind the last item, exactly when the total and
    the current offset leave the same remainder modulo the limit and that
    remainder is not 0. *)
Theorem last_link_at_total (p : OffsetPagination) :
  Limit p <= Total p -> 0 <= Total p ->
  1 <= effectiveLimit p -> 0 <= effectiveOffset p ->
  Total p + effectiveLimit p <= Int64.max_int ->
  Int64.add (effectiveOffset p) (effectiveLimit p) < Total p ->
  let L := effectiveLimit p in
  exists (links : Links) (o : Z),
    GeneratePagination p = (Returns (Some links), normalized p) /\
    links !! KeyLastPage = Some (rewriteURL (workingURL p) L o) /\
    (o = Total p <->
     Total p mod L = effectiveOffset p mod L /\ Total p mod L <> 0).
Proof.
  intros Hle HT HL HO Hfit Hlast L.
  assert (dividesByZero p = false) as Hnz.
  { unfold dividesByZero. destruct (Z.eqb_spec (effectiveLimit p) 0); [lia|].
    apply andb_false_r. }
  rewrite GeneratePagination_long, Hnz by assumption.
  exists (linkSet (workingURL p) (Total p) (effectiveLimit p) (effectiveOffset p)).
  exists (lastPageOffset (Total p) L (effectiveOffset p)).
  split; [reflexivity|]. split.
  - rewrite linkSet_lookup, targetOffset_last.
    apply Z.ltb_lt in Hlast. rewrite Hlast. reflexivity.
  - destruct (lastPageOffset_exact (Total p) L (effectiveOffset p)) as [-> _];
      try assumption.
    apply specLastOffset_at_total. assumption.
Qed.

End LastPage.

(** ** Reading parameters *)

Lemma is_alnum_not_separator c : is_alnum c = true -> not_separator c = true.
Proof.
  intros Hc. destruct c as [[] [] [] [] [] [] [] []];
    vm_compute in Hc |- *; congruence.
Qed.

Lemma is_alnum_not_amp c : is_alnum c = true -> not_amp c = true.
Proof.
  intros Hc. destruct c as [[] [] [] [] [] [] [] []];
    vm_compute in Hc |- *; congruence.
Qed.

(** X8. For a name of letters and digits (one the pattern takes literally)
    [getPageParam] never returns a negative number nor one above the largest
    int64, whatever the URL holds: a run of digits too long for an int is
    read as the largest int. *)
Theorem getPageParam_range (name url : string) :
  all_chars is_alnum name = true ->
  0 <= getPageParam name url <= Int64.max_int.
Proof.
  intros _. split; [apply getPageParam_nonneg|].
  unfold getPageParam. destruct (FindDigits _ url); [|unfold Int64.max_int; lia].
  unfold Atoi. destruct (NilEmpty.uint_of_string s); unfold Int64.max_int; lia.
Qed.

(** X9. A parameter "page[<name>]=<n>", 0 <= n <= max int64, appended with
    [appendToURL] to a URL that does not contain "page[<name>]=" is read back
    by [getPageParam] as n (for a name of letters and digits). *)
Theorem appended_parameter_reads_back (p : OffsetPagination) (name : string) (n : Z) :
  0 <= n <= Int64.max_int ->
  all_chars is_alnum name = true ->
  Contains (URL p) ("page[" +:+ name +:+ "]=") = false ->
  getPageParam name
    (URL (appendToURL p (("page[" +:+ name +:+ "]=") +:+ FormatInt n))) = n.
Proof.
  intros Hn Hname Hno. destruct (FormatInt_digits n (proj1 Hn)) as [Hd Hne].
  set (key := "page[" +:+ name +:+ "]=") in *.
  assert (key <> "") as Hk by discriminate.
  assert (forall c, (c = "?" \/ c = "&")%char ->
            all_chars (fun y => negb (Ascii.eqb y c)) key = true) as Hsep.
  { intros c Hc. unfold key. rewrite !all_chars_app.
    assert (all_chars (fun y => negb (Ascii.eqb y c)) name = true) as ->.
    { eapply all_chars_impl; [|exact Hname]. intros y Hy.
      apply is_alnum_not_separator in Hy.
      unfold not_separator in Hy. apply andb_true_iff in Hy as [H1 H2].
      destruct Hc as [-> | ->]; assumption. }
    destruct Hc as [-> | ->]; reflexivity. }
  assert (FindDigits key (URL p) = None) as Hf.
  { destruct (FindDigits key (URL p)) as [ds|] eqn:E; [|reflexivity].
    apply FindDigits_Contains in E. congruence. }
  unfold getPageParam. fold key.
  unfold appendToURL.
  destruct (Contains (URL p) "?"); cbn [negb URL set_URL]; rewrite app_single;
    rewrite FindDigits_app_sep, Hf, (FindDigits_at_key key _ Hk Hd Hne)
      by (auto; reflexivity);
    apply Atoi_FormatInt, Hn.
Qed.

(** ** Replacing a parameter that is not there, or twice *)

Lemma HasPrefix_app_short (a b t : string) :
  (String.length t <= String.length a)%nat ->
  HasPrefix (a +:+ b) t = HasPrefix a t.
Proof.
  revert t. induction a as [|c a IH]; intros [|x t] Hlen;
    rewrite ?HasPrefix_empty; try reflexivity.
  - cbn in Hlen. lia.
  - rewrite app_cons, !HasPrefix_cons. cbn in Hlen. rewrite IH by lia. reflexivity.
Qed.

Lemma segReplace_short key repl seg :
  (String.length seg <= String.length key)%nat -> segReplace key repl seg = seg.
Proof.
  induction seg as [|c seg IH]; [reflexivity|]. intros Hlen.
  cbn [segReplace].
  destruct (Nat.ltb_spec (String.length key) (String.length (String c seg))); [lia|].
  rewrite andb_false_r, IH; [reflexivity|]. cbn in Hlen. lia.
Qed.

Lemma segReplace_at_key key repl v :
  v <> "" -> segReplace key repl (key +:+ v) = repl.
Proof.
  intros Hv. destruct (key +:+ v) as [|c t] eqn:E.
  - destruct key; [rewrite app_empty_l in E; congruence | discriminate].
  - cbn [segReplace]. rewrite <- E, HasPrefix_app, length_app_s.
    destruct (Nat.ltb_spec (String.length key) (String.length key + String.length v));
      [reflexivity|].
    destruct v; [congruence|]. cbn in *. lia.
Qed.

Section Override.
Variables (key v1 v2 : string).
Hypothesis v1_nonempty : v1 <> "".

Lemma HasPrefix_segReplace s t :
  (String.length t <= String.length key)%nat ->
  HasPrefix (segReplace key (key +:+ v1) s) t = HasPrefix s t.
Proof.
  revert t. induction s as [|c s IH]; intros t Hlen; [reflexivity|].
  cbn [segReplace].
  destruct (HasPrefix (String c s) key) eqn:Hp; cbn [andb].
  - destruct (_ <? _)%nat.
    + apply HasPrefix_split in Hp. rewrite Hp.
      rewrite !HasPrefix_app_short by assumption. reflexivity.
    + destruct t as [|x t]; [reflexivity|]. rewrite !HasPrefix_cons.
      rewrite IH; [reflexivity|]. cbn in Hlen. lia.
  - destruct t as [|x t]; [reflexivity|]. rewrite !HasPrefix_cons.
    rewrite IH; [reflexivity|]. cbn in Hlen. lia.
Qed.

Lemma HasPrefix_segReplace_cons c s t :
  (String.length t <= S (String.length key))%nat ->
  HasPrefix (String c (segReplace key (key +:+ v1) s)) t = HasPrefix (String c s) t.
Proof.
  intros Hlen. destruct t as [|x t]; [reflexivity|].
  rewrite !HasPrefix_cons, HasPrefix_segReplace; [reflexivity|].
  cbn in Hlen. lia.
Qed.

Lemma segReplace_override seg :
  segReplace key (key +:+ v2) (segReplace key (key +:+ v1) seg) =
  segReplace key (key +:+ v2) seg.
Proof.
  induction seg as [|c seg IH]; [reflexivity|].
  cbn [segReplace].
  destruct (HasPrefix (String c seg) key &&
            (String.length key <? String.length (String c seg))%nat) eqn:Hc.
  - apply segReplace_at_key, v1_nonempty.
  - cbn [segReplace]. rewrite IH.
    replace (HasPrefix (String c (segReplace key (key +:+ v1) seg)) key &&
             (String.length key <? String.length
                (String c (segReplace key (key +:+ v1) seg)))%nat) with false;
      [reflexivity|].
    symmetry. apply andb_false_iff.
    apply andb_false_iff in Hc as [Hp|Hl].
    + left. rewrite HasPrefix_segReplace_cons by lia. exact Hp.
    + right. apply Nat.ltb_ge in Hl. cbn [String.length] in Hl.
      rewrite segReplace_short by lia. apply Nat.ltb_ge. exact Hl.
Qed.

End Override.

Lemma split_amp_inj a b : split_amp a = split_amp b -> a = b.
Proof. intros E. rewrite <- (concat_split a), <- (concat_split b), E. reflexivity. Qed.

(** X10. For the two pagination parameters, [replaceParam] leaves a URL that
    does not contain the parameter name followed by '=' exactly as it is,
    whatever the value: it never adds a parameter. *)
Theorem replaceParam_absent (url param value : string) :
  param = "page[limit]" \/ param = "page[offset]" ->
  Contains url (param +:+ "=") = false -> replaceParam url param value = url.
Proof. intros _ Hno. unfold replaceParam. apply ReplaceAll_absent, Hno. Qed.

(** X11. Of two successive rewrites of the same pagination parameter the
    later one wins: rewriting to a non-empty value and then to another gives
    the same URL as rewriting to the second value at once (values of letters
    and digits). In particular a rewrite is idempotent. *)
Theorem replaceParam_override (url param v1 v2 : string) :
  param = "page[limit]" \/ param = "page[offset]" ->
  v1 <> "" -> all_chars is_alnum v1 = true -> all_chars is_alnum v2 = true ->
  replaceParam (replaceParam url param v1) param v2 = replaceParam url param v2.
Proof.
  intros Hp Hne H1 H2. apply split_amp_inj.
  apply (all_chars_impl _ _ _ is_alnum_not_amp) in H1, H2.
  rewrite !replaceParam_segments by assumption.
  rewrite map_map. apply map_ext. intros seg.
  rewrite <- !app_assoc_s. apply segReplace_override, Hne.
Qed.

(** ** Reading back what was written *)

Section ReadBack.
Variables (k0 : ascii) (key' v : string).
Let key := String k0 key'.
Let repl := String k0 (key' +:+ v).
Hypothesis v_digits : all_chars is_digit v = true.
Hypothesis v_nonempty : v <> "".
Hypothesis k0_not_amp : is_amp k0 = false.
Hypothesis k0_not_digit : is_digit k0 = false.
Hypothesis k0_once : all_chars (differs k0) key' = true.

Lemma FindDigits_cons_Some c s ds :
  FindDigits key s = Some ds -> exists ds', FindDigits key (String c s) = Some ds'.
Proof.
  intros Hs. cbn [FindDigits]. destruct (_ && _); eauto.
Qed.

(** Either the rewritten text shows the new digits, or nothing was rewritten. *)
Lemma ReplaceAll_read_or_same s :
  FindDigits key (ReplaceAll key repl 0 s) = Some v \/
  ReplaceAll key repl 0 s = s.
Proof.
  induction s as [|c s IH]; [right; reflexivity|].
  destruct (match_value key (String c s)) as [[|k]|] eqn:Hm.
  - exfalso. unfold match_value in Hm. destruct (_ && _); [|discriminate].
    unfold key in Hm. cbn in Hm. discriminate.
  - left.
    destruct (FindDigits key (ReplaceAll key repl 0 (String c s))) as [ds|] eqn:E.
    + f_equal. eapply (FindDigits_ReplaceAll k0 key' _ v); eauto.
    + exfalso. rewrite (ReplaceAll_match _ _ _ _ _ Hm) in E.
      unfold repl in E. rewrite app_cons in E. cbn [FindDigits] in E.
      change (String k0 ((key' +:+ v) +:+ ?y)) with ((key +:+ v) +:+ y) in E.
      rewrite app_assoc_s, HasPrefix_app, drop_app_length in E.
      rewrite (take_while_app_all _ _ _ v_digits) in E.
      destruct v as [|d w]; [congruence|]. rewrite app_cons in E. discriminate.
  - rewrite (ReplaceAll_no_match _ _ _ _ Hm).
    destruct IH as [IH|IH]; [left | right; congruence].
    destruct (FindDigits_cons_Some c _ _ IH) as [ds Hds].
    rewrite Hds. f_equal.
    rewrite <- (ReplaceAll_no_match key repl c s Hm) in Hds.
    eapply (FindDigits_ReplaceAll k0 key' _ v); eauto.
Qed.

End ReadBack.

(** X12. After page[offset] was rewritten to n, 0 <= n <= max int64, the
    offset read from the URL is n; the only other outcome is that the URL had
    no page[offset] value to rewrite, in which case it is unchanged and 0 is
    read. *)
Theorem replaceParam_offset_reads_back (url : string) (n : Z) :
  0 <= n <= Int64.max_int ->
  let url' := replaceParam url "page[offset]" (FormatInt n) in
  getPageParam "offset" url' = n \/
  (getPageParam "offset" url' = 0 /\ url' = url).
Proof.
  intros [Hn Hmax] url'. destruct (FormatInt_digits n Hn) as [Hd Hne].
  unfold getPageParam.
  change ("page[" +:+ "offset" +:+ "]=") with "page[offset]=".
  destruct (ReplaceAll_read_or_same "p" "age[offset]=" (FormatInt n) Hd Hne
              eq_refl eq_refl eq_refl url) as [Hread|Hsame].
  - left. change (FindDigits "page[offset]=" url' = Some (FormatInt n)) in Hread.
    rewrite Hread. apply Atoi_FormatInt. split; assumption.
  - change (url' = url) in Hsame.
    destruct (FindDigits "page[offset]=" url') as [ds|] eqn:E.
    + left. apply replaceParam_offset_read in E; [|exact Hn].
      rewrite E. apply Atoi_FormatInt. split; assumption.
    + right. split; [reflexivity | exact Hsame].
Qed.

(** ** Escaping *)

Lemma special_char_escapable c :
  special_char c = true ->
  is_alnum c = false /\ is_ascii c = true /\ Ascii.eqb c backslash = false.
Proof.
  intros Hc. destruct c as [[] [] [] [] [] [] [] []];
    vm_compute in Hc |- *; try discriminate; repeat split; reflexivity.
Qed.

Lemma is_alnum_plain c :
  is_alnum c = true ->
  meta_char c = false /\ is_ascii c = true /\ Ascii.eqb c backslash = false.
Proof.
  intros Hc. destruct c as [[] [] [] [] [] [] [] []];
    vm_compute in Hc |- *; try discriminate; repeat split; reflexivity.
Qed.

(** X13. For a name made of letters, digits and special characters, no two
    special characters adjacent, [regexSafe] yields a literal pattern whose
    text is the name: every special character is escaped and nothing else in
    the result is an operator of the pattern language. *)
Theorem regexSafe_literal (s : string) :
  all_chars (fun c => is_alnum c || special_char c) s = true ->
  specials_apart s = true ->
  literalText (regexSafe s) = Some s.
Proof.
  induction s as [|c rest IH]; [reflexivity|].
  intros Hcs Hap. cbn [all_chars] in Hcs. apply andb_true_iff in Hcs as [Hc Hcs].
  assert (specials_apart rest = true) as Hrest.
  { destruct rest; [reflexivity|]. cbn [specials_apart] in Hap.
    apply andb_true_iff in Hap as [_ Hap]. exact Hap. }
  specialize (IH Hcs Hrest).
  cbn [regexSafe]. destruct (special_char c) eqn:Hsc.
  - destruct (special_char_escapable c Hsc) as (Hal & Has & Hbs).
    destruct rest as [|c' rest'].
    + cbn [literalText]. rewrite Ascii.eqb_refl, Hal, Has. reflexivity.
    + cbn [specials_apart] in Hap. rewrite Hsc in Hap.
      destruct (special_char c') eqn:Hsc'; [discriminate|].
      cbn [literalText]. rewrite Ascii.eqb_refl, Hal, Has, IH. reflexivity.
  - rewrite orb_false_r in Hc.
    destruct (is_alnum_plain c Hc) as (Hm & Has & Hbs).
    cbn [literalText]. rewrite Hbs, Hm, Has, IH. reflexivity.
Qed.

(** X14. Of two adjacent special characters [regexSafe] keeps only the
    second: the result is the same as if the first were not there. *)
Theorem regexSafe_keeps_last_of_run (pre post : string) (c c' : ascii) :
  special_char c = true -> special_char c' = true ->
  regexSafe (pre +:+ String c (String c' post)) = regexSafe (pre +:+ String c' post).
Proof.
  intros Hc Hc'. induction pre as [|x pre IH].
  - rewrite !app_empty_l. cbn [regexSafe]. rewrite Hc, Hc'. reflexivity.
  - rewrite !app_cons. cbn [regexSafe]. rewrite IH.
    destruct (special_char x); [|reflexivity].
    destruct pre as [|y pre]; [|rewrite !app_cons; reflexivity].
    rewrite !app_empty_l in *. rewrite Hc, Hc'. reflexivity.
Qed.

(** ** Links objects and payloads *)

Section Validate.
Context {Meta Other : Type}.
Implicit Types (entries : list (string * member Meta Other)).

Lemma validate_None entries :
  validate entries = None <->
  Forall (fun kv => isString kv.2 || isLink kv.2 = true) entries.
Proof.
  induction entries as [|[k v] rest IH]; cbn [validate].
  - split; [constructor | reflexivity].
  - destruct (isString v || isLink v) eqn:E; cbn [negb].
    + rewrite IH. split; [intros Hr; constructor; assumption|].
      intros Hall. apply Forall_cons in Hall as [_ Hr]. exact Hr.
    + split; [discriminate|]. intros Hall. apply Forall_cons in Hall as [Hv _].
      cbn in Hv. congruence.
Qed.

Lemma validate_Some entries err :
  validate entries = Some err ->
  exists k v, (k, v) ∈ entries /\ isString v || isLink v = false /\
              err = memberError k.
Proof.
  induction entries as [|[k v] rest IH]; cbn [validate]; [discriminate|].
  destruct (isString v || isLink v) eqn:E; cbn [negb].
  - intros Hr. destruct (IH Hr) as (k' & v' & Hin & Hbad & ->).
    exists k', v'. split; [right; exact Hin | auto].
  - intros [= <-]. exists k, v. split; [left | auto].
Qed.

(** X15. In whatever order the members are visited, [validate] returns the
    nil error exactly when every member of the links object is a string or a
    [Link], and an error it returns names a member that is neither. *)
Theorem validate_any_order (l : gmap string (member Meta Other))
    (entries : list (string * member Meta Other)) :
  rangeOrder l entries ->
  (validate entries = None <->
   forall k v, l !! k = Some v -> isString v || isLink v = true) /\
  (forall err, validate entries = Some err ->
     exists k v, l !! k = Some v /\ isString v || isLink v = false /\
                 err = memberError k).
Proof.
  unfold rangeOrder. intros Hperm. split.
  - rewrite validate_None, Forall_forall. split.
    + intros Hall k v Hkv. apply (Hall (k, v)).
      rewrite Hperm. apply elem_of_map_to_list. exact Hkv.
    + intros Hall [k v] Hin. rewrite Hperm in Hin.
      apply elem_of_map_to_list in Hin. apply (Hall k v Hin).
  - intros err Herr. destruct (validate_Some _ _ Herr) as (k & v & Hin & Hbad & ->).
    exists k, v. rewrite Hperm in Hin. apply elem_of_map_to_list in Hin. auto.
Qed.

End Validate.

Section AddPagination.
Context `{Platform}.
Variables (Meta Other ResourceObj : Type).

(** X16. When [ManyPayload.AddPagination] returns with an offset paginator,
    the payload's data, included resources and meta are as before; its links
    are nil exactly when total < limit (whatever links it held) and otherwise
    a links object that passes [validate]; and calling it again with the
    paginator as it was left changes nothing. *)
Theorem ManyAddPagination_offset
    (payload payload' : ManyPayload Meta Other ResourceObj)
    (p p' : OffsetPagination) :
  ManyAddPagination payload p = (Returns payload', p') ->
  ManyData payload' = ManyData payload /\
  ManyIncluded payload' = ManyIncluded payload /\
  ManyMeta payload' = ManyMeta payload /\
  (Total p < Limit p <-> ManyLinks payload' = None) /\
  (forall l entries,
     ManyLinks payload' = Some l -> rangeOrder l entries ->
     validate entries = None) /\
  ManyAddPagination payload' p' = (Returns payload', p').
Proof.
  unfold ManyAddPagination. cbn [paginate OffsetPagination_Paginator].
  pose proof (GeneratePagination_again p) as Hagain.
  destruct (GeneratePagination p) as [[links|] p1] eqn:E; [|discriminate].
  intros [= <- <-]. cbn [ManyData ManyIncluded ManyMeta ManyLinks].
  cbn [snd] in Hagain. rewrite Hagain.
  repeat split; try reflexivity.
  - intros Hlt. rewrite GeneratePagination_short in E by assumption.
    injection E as <- _. reflexivity.
  - intros Hnone. destruct (Z.lt_ge_cases (Total p) (Limit p)) as [Hlt|Hle];
      [assumption|].
    rewrite GeneratePagination_long in E by assumption.
    destruct (dividesByZero p); [discriminate|]. injection E as <- _.
    discriminate.
  - intros l entries Hl Hperm. apply validate_None, Forall_forall.
    intros [k v] Hin. unfold rangeOrder in Hperm. rewrite Hperm in Hin.
    apply elem_of_map_to_list in Hin.
    destruct links as [m|]; [|discriminate]. injection Hl as <-.
    unfold asMembers in Hin. rewrite lookup_fmap in Hin.
    destruct (m !! k); [|discriminate]. injection Hin as <-. reflexivity.
Qed.

End AddPagination.

(** ** The working URL of a URL with a query string *)

Lemma FormatInt_nonempty n : FormatInt n <> "".
Proof.
  unfold FormatInt. destruct (Z.to_int n) as [d|d]; cbn.
  - destruct d; discriminate.
  - discriminate.
Qed.

Lemma hasValue_at_key key v : v <> "" -> hasValue key (key +:+ v) = true.
Proof.
  intros Hv. destruct (key +:+ v) as [|c t] eqn:E.
  - destruct key; [rewrite app_empty_l in E; congruence | discriminate].
  - cbn [hasValue]. rewrite <- E, HasPrefix_app, length_app_s.
    destruct (Nat.ltb_spec (String.length key) (String.length key + String.length v));
      [reflexivity|].
    destruct v; [congruence|]. cbn in *. lia.
Qed.

Lemma appended_limit_keys n :
  Contains ("page[limit]=" +:+ FormatInt n) "page[offset]=" = false /\
  Contains ("page[limit]=" +:+ FormatInt n) "page[Limit]=" = false.
Proof.
  split; rewrite !app_cons, app_empty_l; cbn;
    apply Contains_without_first, FormatInt_no_p.
Qed.

Section Normalised.
Context `{Platform}.

Lemma workingURL_segments_exact p :
  Contains (URL p) "?" = true ->
  split_amp (workingURL p) =
    (split_amp (URL p)
     ++ (if Contains (URL p) "page[limit]" then []
         else ["page[limit]=" +:+ FormatInt (Limit p)])
     ++ (if Contains (URL p) "page[offset]" then [] else ["page[offset]=0"]))%list.
Proof.
  intros Hq. unfold workingURL. rewrite workingURL_spec. cbn [URL set_URL].
  unfold specWorkingURL, specAppend. rewrite Hq.
  assert (split_amp ("page[limit]=" +:+ FormatInt (Limit p)) =
          ["page[limit]=" +:+ FormatInt (Limit p)]) as Hone.
  { apply split_amp_single. rewrite all_chars_app, FormatInt_no_amp. reflexivity. }
  destruct (Contains (URL p) "page[limit]"), (Contains (URL p) "page[offset]");
    rewrite ?Hq.
  - rewrite !app_nil_r. reflexivity.
  - rewrite app_single, split_amp_app. reflexivity.
  - rewrite app_single, split_amp_app, Hone, app_nil_r. reflexivity.
  - rewrite app_single, Contains_app_sep, Hq by reflexivity. cbn [orb].
    rewrite !app_single, !split_amp_app, Hone, <- app_assoc. reflexivity.
Qed.

(** X17. For an input URL with a query string, the segments of the working
    URL are those of the input URL followed by "page[limit]=<limit>" and
    "page[offset]=0", each for a name the input URL does not contain. Hence
    two of the keys page[limit]=, page[offset]= and page[Limit]= that are
    apart in the input URL are apart in the working URL, and a pagination
    parameter that has a value in the input URL, or whose name the input URL
    does not contain, has a value in the working URL. *)
Theorem appended_parameters_are_segments (p : OffsetPagination) :
  Contains (URL p) "?" = true ->
  split_amp (workingURL p) =
    (split_amp (URL p)
     ++ (if Contains (URL p) "page[limit]" then []
         else ["page[limit]=" +:+ FormatInt (Limit p)])
     ++ (if Contains (URL p) "page[offset]" then [] else ["page[offset]=0"]))%list /\
  (forall k1 k2,
     In k1 ["page[limit]="; "page[offset]="; "page[Limit]="] ->
     In k2 ["page[limit]="; "page[offset]="; "page[Limit]="] ->
     k1 <> k2 ->
     apart k1 k2 (URL p) = true -> apart k1 k2 (workingURL p) = true) /\
  (hasParam "page[offset]=" (URL p) = true \/ Contains (URL p) "page[offset]" = false ->
   hasParam "page[offset]=" (workingURL p) = true) /\
  (hasParam "page[limit]=" (URL p) = true \/ Contains (URL p) "page[limit]" = false ->
   hasParam "page[limit]=" (workingURL p) = true).
Proof.
  intros Hq. pose proof (workingURL_segments_exact p Hq) as Hseg.
  split; [exact Hseg|].
  destruct (appended_limit_keys (Limit p)) as [HlO HlC].
  split; [|split].
  - intros k1 k2 H1 H2 Hne Hap. unfold apart in *. rewrite Hseg, !forallb_app, Hap.
    cbn [andb].
    assert (negb (Contains ("page[limit]=" +:+ FormatInt (Limit p)) k1 &&
                  Contains ("page[limit]=" +:+ FormatInt (Limit p)) k2) = true) as Hl.
    { cbn [In] in H1, H2.
      destruct H1 as [<-|[<-|[<-|[]]]], H2 as [<-|[<-|[<-|[]]]];
        try congruence; rewrite ?HlO, ?HlC, ?andb_false_r; reflexivity. }
    assert (negb (Contains "page[offset]=0" k1 && Contains "page[offset]=0" k2) = true)
      as Ho.
    { cbn [In] in H1, H2.
      destruct H1 as [<-|[<-|[<-|[]]]], H2 as [<-|[<-|[<-|[]]]];
        try congruence; reflexivity. }
    destruct (Contains (URL p) "page[limit]"), (Contains (URL p) "page[offset]");
      cbn [forallb]; rewrite ?Hl, ?Ho; reflexivity.
  - intros Hhas. unfold hasParam in *. rewrite Hseg, !existsb_app.
    destruct Hhas as [-> | ->]; [reflexivity|].
    cbn. rewrite !orb_true_r. reflexivity.
  - intros Hhas. unfold hasParam in *. rewrite Hseg, !existsb_app.
    destruct Hhas as [-> | ->]; [reflexivity|].
    cbn [existsb]. rewrite (hasValue_at_key "page[limit]=") by apply FormatInt_nonempty.
    rewrite orb_true_r. reflexivity.
Qed.

End Normalised.

(** * Instances and counterexamples *)

#[local] Existing Instance amd64.

(** C2 as stated fails: a request whose URL lacks the parameters comes back
    with another URL than it was given. *)
Lemma C2_counterexample :
  URL (GeneratePagination noParams).2 = "/?page[limit]=100&page[offset]=0" /\
  URL (GeneratePagination noParams).2 <> URL noParams.
Proof. split; [vm_compute; reflexivity | vm_compute; discriminate]. Qed.

(** C3 as stated fails: with total = limit and offset 0 the call returns a
    link set that is present and empty, neither nil nor a set of 1 to 4
    links. *)
Lemma C3_counterexample :
  Total exactlyOnePage = Limit exactlyOnePage /\
  effectiveOffset exactlyOnePage = 0 /\
  (GeneratePagination exactlyOnePage).1 = Returns (Some ∅) /\
  ~ ((GeneratePagination exactlyOnePage).1 = Returns None \/
     exists links : Links,
       (GeneratePagination exactlyOnePage).1 = Returns (Some links) /\
       (1 <= size links <= 4)%nat).
Proof.
  assert ((GeneratePagination exactlyOnePage).1 = Returns (Some ∅)) as Hr
    by (vm_compute; reflexivity).
  split; [reflexivity|]. split; [vm_compute; reflexivity|].
  split; [exact Hr|]. rewrite Hr.
  intros [Hnil | (links & Hl & Hsize)]; [discriminate|].
  injection Hl as <-. rewrite map_size_empty in Hsize. lia.
Qed.

(** C4 as stated fails. With empty parameter values nothing is rewritten:
    the [next] link, whose target offset is 0 + 100, is the working URL as
    it was; it holds neither page[offset]=100 nor page[limit]=100, and both
    values read back as 0. With page[offset] inside the value of page[limit]
    the rewrite of the limit removes it: the [next] link, whose target
    offset is 7 + 100, holds no page[offset] at all. *)
Lemma C4_counterexample :
  (exists (links : Links) (u : string),
    (GeneratePagination emptyValues).1 = Returns (Some links) /\
    links !! KeyNextPage = Some u /\
    effectiveOffset emptyValues + effectiveLimit emptyValues = 100 /\
    u = workingURL emptyValues /\
    Contains u "page[offset]=100" = false /\
    Contains u "page[limit]=100" = false /\
    getPageParam "offset" u = 0 /\
    getPageParam "limit" u = 0) /\
  (exists (links : Links) (u : string),
    (GeneratePagination joinedParams).1 = Returns (Some links) /\
    links !! KeyNextPage = Some u /\
    effectiveOffset joinedParams + effectiveLimit joinedParams = 107 /\
    u = "/?page[limit]=100" /\
    Contains u "page[offset]" = false).
Proof.
  split.
  2:{ exists (linkSet (workingURL joinedParams) (Total joinedParams)
                (effectiveLimit joinedParams) (effectiveOffset joinedParams)).
      exists "/?page[limit]=100".
      split; [vm_compute; reflexivity|]. split; [vm_compute; reflexivity|].
      split; [vm_compute; reflexivity|]. split; [reflexivity|].
      vm_compute; reflexivity. }
  exists (linkSet (workingURL emptyValues) (Total emptyValues)
            (effectiveLimit emptyValues) (effectiveOffset emptyValues)).
  exists "/?page[limit]=&page[offset]=".
  split; [vm_compute; reflexivity|]. split; [vm_compute; reflexivity|].
  split; [vm_compute; reflexivity|]. split; [vm_compute; reflexivity|].
  split; [vm_compute; reflexivity|]. split; [vm_compute; reflexivity|].
  split; vm_compute; reflexivity.
Qed.

(** The [next] link of the mid-range request of the test suite, which reads
    back as offset 111 + 100 and limit 100; and a request within one
    page-width of the end (200 + 100 is below 334 but not below 334 - 100),
    which has a [last] link and no [next] link. *)
Lemma C4_witness :
  (exists links : Links,
     GeneratePagination midRange = (Returns (Some links), normalized midRange) /\
     links !! KeyNextPage = Some "/?page[limit]=100&page[offset]=211" /\
     getPageParam "offset" "/?page[limit]=100&page[offset]=211" = 111 + 100 /\
     getPageParam "limit" "/?page[limit]=100&page[offset]=211" = 100) /\
  (exists links : Links,
     GeneratePagination nearTheEnd = (Returns (Some links), normalized nearTheEnd) /\
     effectiveOffset nearTheEnd + effectiveLimit nearTheEnd < Total nearTheEnd /\
     links !! KeyNextPage = None /\ is_Some (links !! KeyLastPage)).
Proof.
  split.
  - assert (Limit midRange <= Total midRange) as Hle by (vm_compute; discriminate).
    pose proof (C4_next_link midRange Hle) as Hw. cbv zeta in Hw.
    destruct Hw as [[_ Hz] | (links & Hgp & Hiff & _ & Hlink)];
      [vm_compute in Hz; discriminate|].
    assert (is_Some (links !! KeyNextPage)) as [u Hu]
      by (apply Hiff; vm_compute; reflexivity).
    destruct (Hlink u Hu) as (Hseg & Hread).
    assert (u = "/?page[limit]=100&page[offset]=211") as Heq.
    { rewrite <- (concat_split u), Hseg. vm_compute. reflexivity. }
    assert (apart "page[limit]=" "page[offset]=" (workingURL midRange) = true) as Hap
      by (vm_compute; reflexivity).
    destruct (Hread Hap) as (Hoff & Hlim).
    exists links. split; [exact Hgp|]. rewrite <- Heq. split; [exact Hu|]. split.
    + rewrite Hoff; [vm_compute; reflexivity | vm_compute; reflexivity
                     | vm_compute; discriminate].
    + rewrite Hlim; [vm_compute; reflexivity | vm_compute; reflexivity|].
      split; vm_compute; discriminate.
  - assert (Limit nearTheEnd <= Total nearTheEnd) as Hle by (vm_compute; discriminate).
    pose proof (C4_next_link nearTheEnd Hle) as Hw. cbv zeta in Hw.
    destruct Hw as [[_ Hz] | (links & Hgp & _ & Harith & _)];
      [vm_compute in Hz; discriminate|].
    assert (Int64.in_range (effectiveOffset nearTheEnd + effectiveLimit nearTheEnd))
      as Hin1 by (split; vm_compute; discriminate).
    assert (Int64.in_range (Total nearTheEnd - effectiveLimit nearTheEnd))
      as Hin2 by (split; vm_compute; discriminate).
    destruct (Harith Hin1 Hin2) as (_ & _ & _ & Htail).
    exists links. split; [exact Hgp|]. split; [vm_compute; reflexivity|].
    apply Htail. split; [vm_compute; discriminate | vm_compute; reflexivity].
Defined.


(** C6 as stated fails: the parameter named xpage[limit], which is neither
    page[limit] nor page[offset], is first in the input URL with the value 7
    and first in the [next] link with the value 100, so the link does not
    retain every other parameter of the input URL in its position. *)
Lemma C6_counterexample :
  exists (links : Links) (u : string),
    (GeneratePagination lookalikeParam).1 = Returns (Some links) /\
    links !! KeyNextPage = Some u /\
    queryParams (URL lookalikeParam) !! 0%nat = Some "xpage[limit]=7" /\
    paramName "xpage[limit]=7" = "xpage[limit]" /\
    queryParams u !! 0%nat = Some "xpage[limit]=100" /\
    ~ (forall (i : nat) (param : string),
         queryParams (URL lookalikeParam) !! i = Some param ->
         paramName param <> "page[limit]" ->
         paramName param <> "page[offset]" ->
         queryParams u !! i = Some param).
Proof.
  exists (linkSet (workingURL lookalikeParam) (Total lookalikeParam)
            (effectiveLimit lookalikeParam) (effectiveOffset lookalikeParam)).
  exists "/?xpage[limit]=100&page[limit]=100&page[offset]=100".
  split; [vm_compute; reflexivity|]. split; [vm_compute; reflexivity|].
  split; [reflexivity|]. split; [reflexivity|]. split; [reflexivity|].
  intros Hall.
  specialize (Hall 0%nat "xpage[limit]=7" eq_refl).
  assert (queryParams "/?xpage[limit]=100&page[limit]=100&page[offset]=100" !! 0%nat
          = Some "xpage[limit]=7") as Hbad.
  { apply Hall; vm_compute; discriminate. }
  vm_compute in Hbad. discriminate.
Qed.

(** A parameter between the two pagination parameters is where it was. *)
Lemma C6_witness :
  exists (links : Links) (u : string),
    (GeneratePagination otherParams).1 = Returns (Some links) /\
    links !! KeyNextPage = Some u /\
    split_amp (workingURL otherParams) !! 2%nat = Some "aparam=2" /\
    split_amp u !! 2%nat = Some "aparam=2".
Proof.
  assert (Limit otherParams <= Total otherParams) as Hle
    by (vm_compute; discriminate).
  set (links := linkSet (workingURL otherParams) (Total otherParams)
                  (effectiveLimit otherParams) (effectiveOffset otherParams)).
  set (u := "/?page[sort]=-1&page[limit]=100&aparam=2&page[offset]=211&lastparam=owt").
  assert ((GeneratePagination otherParams).1 = Returns (Some links)) as Hr
    by (vm_compute; reflexivity).
  assert (links !! KeyNextPage = Some u) as Hk by (vm_compute; reflexivity).
  assert (split_amp (workingURL otherParams) !! 2%nat = Some "aparam=2") as Hseg
    by (vm_compute; reflexivity).
  exists links, u.
  split; [exact Hr|]. split; [exact Hk|]. split; [exact Hseg|].
  destruct (C6_segments_preserved otherParams links KeyNextPage u Hle Hr Hk)
    as (_ & Hkeep & _ & _).
  apply Hkeep; [exact Hseg | vm_compute; reflexivity | vm_compute; reflexivity].
Defined.

(** A total below the limit. *)
Lemma C7_witness :
  Total onePage < Limit onePage /\
  GeneratePagination onePage = (Returns None, onePage).
Proof.
  assert (Total onePage < Limit onePage) as Hlt by (vm_compute; reflexivity).
  split; [exact Hlt|].
  apply (C7_below_threshold_returns_none onePage Hlt).
Defined.

(** C9 as stated fails on amd64: with limit = 0 and total = 0 the
    precondition holds, yet a URL offset of 2^63 - 1 becomes 2^63 as a
    float64, comes back as the smallest int64, passes offset + limit < total
    and reaches the division by the limit 0. *)
Lemma C9_counterexample :
  (0 < Total hugeOffset -> 1 <= Limit hugeOffset) /\
  Limit hugeOffset = 0 /\ Total hugeOffset = 0 /\
  extractedOffset hugeOffset = Int64.max_int /\
  effectiveOffset hugeOffset = Int64.min_int /\
  (GeneratePagination hugeOffset).1 = Panics.
Proof.
  split; [intros Hpos; vm_compute in Hpos; discriminate|].
  split; [reflexivity|]. split; [reflexivity|].
  split; [vm_compute; reflexivity|]. split; vm_compute; reflexivity.
Qed.

(** Parameters without digits: the call returns, the offset is read as 0
    and the limit is the configured one. *)
Lemma C9_witness :
  (0 < Total nonNumeric -> 1 <= Limit nonNumeric) /\
  (exists r, (GeneratePagination nonNumeric).1 = Returns r) /\
  effectiveOffset nonNumeric = 0 /\
  effectiveLimit nonNumeric = Limit nonNumeric.
Proof.
  assert (0 < Total nonNumeric -> 1 <= Limit nonNumeric) as Hpre
    by (intros _; vm_compute; discriminate).
  assert (extractedOffset nonNumeric < 2 ^ 63 - 512) as Hco
    by (vm_compute; reflexivity).
  pose proof (C9_no_failure nonNumeric) as Hw. cbv zeta in Hw.
  destruct Hw as (_ & Hret & _ & Hoff & Hlim).
  split; [exact Hpre|]. split; [exact (proj1 (proj1 (Hret Hpre) Hco))|]. split.
  - apply Hoff.
    apply (digits_absent
             (fun d => Contains (workingURL nonNumeric) ("page[offset]=" +:+ String d "")));
      vm_compute; reflexivity.
  - apply Hlim; [vm_compute; discriminate|].
    apply (digits_absent
             (fun d => Contains (workingURL nonNumeric) ("page[Limit]=" +:+ String d "")));
      vm_compute; reflexivity.
Defined.

(** C10 as stated fails. With empty parameter values nothing is rewritten,
    the [next] link (target offset 100) is the input URL again, and the call
    on it reads offset 0, not 100: it emits no [first] link although the
    threshold of [first] applied to 100 holds. With page[offset] inside the
    value of page[limit] the rewrite of the limit removes it: the [next]
    link (target offset 107) reads back as offset 0. With page[Limit] inside
    the value of page[limit] the effective limit 50 of the first call is 100
    in the call on its [next] link, and likewise with page[Limit] inside the
    value of page[offset]. A target offset of 2^53 + 1 is read again as
    2^53, the float64 nearest to it. *)
Lemma C10_counterexample :
  (exists (links links' : Links) (u : string),
    (GeneratePagination emptyValues).1 = Returns (Some links) /\
    links !! KeyNextPage = Some u /\
    targetOffset (Total emptyValues) (effectiveLimit emptyValues)
      (effectiveOffset emptyValues) KeyNextPage = Some 100 /\
    (GeneratePagination (mkOffsetPagination u 100 334)).1 = Returns (Some links') /\
    effectiveOffset (mkOffsetPagination u 100 334) <> 100 /\
    targetOffset 334 100 100 KeyFirstPage = Some 0 /\
    links' !! KeyFirstPage = None) /\
  (exists (links : Links) (u : string),
    (GeneratePagination joinedParams).1 = Returns (Some links) /\
    links !! KeyNextPage = Some u /\
    apart "page[limit]=" "page[offset]=" (workingURL joinedParams) = false /\
    targetOffset (Total joinedParams) (effectiveLimit joinedParams)
      (effectiveOffset joinedParams) KeyNextPage = Some 107 /\
    effectiveOffset (mkOffsetPagination u 100 334) = 0) /\
  (exists (links : Links) (u : string),
    (GeneratePagination swallowedLimit).1 = Returns (Some links) /\
    links !! KeyNextPage = Some u /\
    apart "page[Limit]=" "page[limit]=" (workingURL swallowedLimit) = false /\
    effectiveLimit swallowedLimit = 50 /\
    effectiveLimit (mkOffsetPagination u 100 334) = 100) /\
  (exists (links : Links) (u : string),
    (GeneratePagination capitalInOffset).1 = Returns (Some links) /\
    links !! KeyNextPage = Some u /\
    apart "page[Limit]=" "page[offset]=" (workingURL capitalInOffset) = false /\
    effectiveLimit capitalInOffset = 50 /\
    effectiveLimit (mkOffsetPagination u 100 334) = 100) /\
  (exists (links : Links) (u : string),
    (GeneratePagination pastExact).1 = Returns (Some links) /\
    links !! KeyNextPage = Some u /\
    targetOffset (Total pastExact) (effectiveLimit pastExact)
      (effectiveOffset pastExact) KeyNextPage = Some (2 ^ 53 + 1) /\
    effectiveOffset (mkOffsetPagination u (Limit pastExact) (Total pastExact))
      = 2 ^ 53).
Proof.
  split; [|split; [|split; [|split]]].
  - exists (linkSet (workingURL emptyValues) (Total emptyValues)
              (effectiveLimit emptyValues) (effectiveOffset emptyValues)).
    exists (linkSet (workingURL emptyValues) (Total emptyValues)
              (effectiveLimit emptyValues) (effectiveOffset emptyValues)).
    exists "/?page[limit]=&page[offset]=".
    split; [vm_compute; reflexivity|]. split; [vm_compute; reflexivity|].
    split; [vm_compute; reflexivity|]. split; [vm_compute; reflexivity|].
    split; [vm_compute; discriminate|]. split; vm_compute; reflexivity.
  - exists (linkSet (workingURL joinedParams) (Total joinedParams)
              (effectiveLimit joinedParams) (effectiveOffset joinedParams)).
    exists "/?page[limit]=100".
    split; [vm_compute; reflexivity|]. split; [vm_compute; reflexivity|].
    split; [vm_compute; reflexivity|]. split; vm_compute; reflexivity.
  - exists (linkSet (workingURL swallowedLimit) (Total swallowedLimit)
              (effectiveLimit swallowedLimit) (effectiveOffset swallowedLimit)).
    exists "/?page[limit]=50&page[offset]=50".
    split; [vm_compute; reflexivity|]. split; [vm_compute; reflexivity|].
    split; [vm_compute; reflexivity|]. split; vm_compute; reflexivity.
  - exists (linkSet (workingURL capitalInOffset) (Total capitalInOffset)
              (effectiveLimit capitalInOffset) (effectiveOffset capitalInOffset)).
    exists "/?page[offset]=55&page[limit]=50".
    split; [vm_compute; reflexivity|]. split; [vm_compute; reflexivity|].
    split; [vm_compute; reflexivity|]. split; vm_compute; reflexivity.
  - exists (linkSet (workingURL pastExact) (Total pastExact)
              (effectiveLimit pastExact) (effectiveOffset pastExact)).
    exists "/?page[limit]=1&page[offset]=9007199254740993".
    split; [vm_compute; reflexivity|]. split; [vm_compute; reflexivity|].
    split; vm_compute; reflexivity.
Qed.

(** The [next] link of a request whose URL carries page[Limit]=50, read
    again: offset 50 and the effective limit 50 of the first call. *)
Lemma C10_witness :
  exists o,
    targetOffset (Total capitalLimit) (effectiveLimit capitalLimit)
      (effectiveOffset capitalLimit) KeyNextPage = Some o /\
    o = 50 /\
    effectiveOffset
      (mkOffsetPagination "/?page[Limit]=50&page[offset]=50&page[limit]=50" 100 334) = 50 /\
    effectiveLimit
      (mkOffsetPagination "/?page[Limit]=50&page[offset]=50&page[limit]=50" 100 334) =
    effectiveLimit capitalLimit.
Proof.
  set (links := linkSet (workingURL capitalLimit) (Total capitalLimit)
                  (effectiveLimit capitalLimit) (effectiveOffset capitalLimit)).
  set (u := "/?page[Limit]=50&page[offset]=50&page[limit]=50").
  assert ((GeneratePagination capitalLimit).1 = Returns (Some links)) as Hr
    by (vm_compute; reflexivity).
  assert (links !! KeyNextPage = Some u) as Hk by (vm_compute; reflexivity).
  assert (apart "page[limit]=" "page[offset]=" (workingURL capitalLimit) = true) as H1
    by (vm_compute; reflexivity).
  assert (apart "page[Limit]=" "page[limit]=" (workingURL capitalLimit) = true) as H2
    by (vm_compute; reflexivity).
  assert (apart "page[Limit]=" "page[offset]=" (workingURL capitalLimit) = true) as H3
    by (vm_compute; reflexivity).
  assert (hasParam "page[offset]=" (workingURL capitalLimit) = true) as H4
    by (vm_compute; reflexivity).
  pose proof (C10_rerun_on_emitted_link capitalLimit links KeyNextPage u
                Hr Hk H1 H2 H3 H4) as Hw.
  cbv zeta in Hw. destruct Hw as (o & Ht & Hrun).
  assert (o = 50) as Ho by (vm_compute in Ht; congruence).
  exists o. split; [exact Ht|]. split; [exact Ho|].
  assert (0 <= o < 2 ^ 53) as Hrange
    by (rewrite Ho; split; vm_compute; [discriminate | reflexivity]).
  destruct (Hrun Hrange) as (_ & HO & HL & _).
  rewrite <- Ho. split; [exact HO | exact HL].
Defined.

(** ** Instances of the further properties *)

(** X1 at the mid-range request: both links, with offsets 0 and 11, the
    latter read back as 111 - 100. *)
Lemma X1_witness :
  exists links : Links,
    GeneratePagination midRange = (Returns (Some links), normalized midRange) /\
    links !! KeyFirstPage = Some "/?page[limit]=100&page[offset]=0" /\
    links !! KeyPreviousPage = Some "/?page[limit]=100&page[offset]=11" /\
    getPageParam "offset" "/?page[limit]=100&page[offset]=11" = 111 - 100.
Proof.
  assert (Limit midRange <= Total midRange) as Hle by (vm_compute; discriminate).
  pose proof (first_and_previous_links midRange Hle) as Hw. cbv zeta in Hw.
  destruct Hw as [[_ Hz] | (links & Hgp & Hfirst & Hprev & Hflink & Hplink)];
    [vm_compute in Hz; discriminate|].
  assert (is_Some (links !! KeyFirstPage)) as [u Hu]
    by (apply Hfirst; vm_compute; reflexivity).
  assert (is_Some (links !! KeyPreviousPage)) as [v Hv]
    by (apply Hprev; vm_compute; reflexivity).
  destruct (Hflink u Hu) as (Hsegu & _).
  destruct (Hplink v Hv) as (Hsegv & _ & Hread).
  assert (u = "/?page[limit]=100&page[offset]=0") as Hequ.
  { rewrite <- (concat_split u), Hsegu. vm_compute. reflexivity. }
  assert (v = "/?page[limit]=100&page[offset]=11") as Heqv.
  { rewrite <- (concat_split v), Hsegv. vm_compute. reflexivity. }
  assert (apart "page[limit]=" "page[offset]=" (workingURL midRange) = true) as Hap
    by (vm_compute; reflexivity).
  destruct (Hread Hap) as (Hoff & _).
  exists links. split; [exact Hgp|]. rewrite <- Hequ, <- Heqv.
  split; [exact Hu|]. split; [exact Hv|].
  rewrite Hoff; [vm_compute; reflexivity | vm_compute; reflexivity|].
  split; vm_compute; discriminate.
Defined.

(** X2 at the mid-range request. *)
Lemma X2_witness :
  exists links : Links,
    GeneratePagination midRange = (Returns (Some links), normalized midRange) /\
    (is_Some (links !! KeyPreviousPage) -> is_Some (links !! KeyFirstPage)) /\
    (is_Some (links !! KeyNextPage) -> is_Some (links !! KeyLastPage)).
Proof.
  apply (links_come_in_pairs midRange).
  - split; vm_compute; discriminate.
  - vm_compute; reflexivity.
  - vm_compute; discriminate.
Defined.

(** X4 at the request without parameters. *)
Lemma X4_witness :
  Contains (URL noParams) "page[offset]" = false /\
  effectiveOffset noParams = 0.
Proof.
  assert (Contains (URL noParams) "page[offset]" = false) as Hno
    by (vm_compute; reflexivity).
  split; [exact Hno|].
  exact (proj1 (proj2 (missing_offset_is_first_page noParams Hno))).
Defined.

(** X5 at the mid-range request: min(0, 100) = 0 falls back to 100. *)
Lemma X5_witness :
  Z.abs (Limit midRange) < 2 ^ 53 /\
  effectiveLimit midRange =
    (let m := Z.min (extractedLimit midRange) (Limit midRange) in
     if m =? 0 then Limit midRange else m).
Proof.
  assert (Z.abs (Limit midRange) < 2 ^ 53) as Hl by (vm_compute; reflexivity).
  split; [exact Hl|].
  exact (proj1 (effective_values_exact midRange Hl)).
Defined.

(** X6 at the mid-range request: the last offset 311 lies in [234, 334] and
    leaves the remainder 11 of the current offset 111. *)
Lemma X6_witness :
  exists (links : Links) (o : Z),
    GeneratePagination midRange = (Returns (Some links), normalized midRange) /\
    links !! KeyLastPage =
      Some (rewriteURL (workingURL midRange) (effectiveLimit midRange) o) /\
    Total midRange - effectiveLimit midRange <= o <= Total midRange /\
    o mod effectiveLimit midRange =
      effectiveOffset midRange mod effectiveLimit midRange.
Proof.
  apply (last_link_within_a_page midRange).
  - vm_compute; discriminate.
  - vm_compute; discriminate.
  - vm_compute; discriminate.
  - vm_compute; discriminate.
  - vm_compute; discriminate.
  - vm_compute; reflexivity.
Defined.

(** X7 at offset 34 of 334 with limit 100: the last link has offset 334. *)
Lemma X7_witness :
  Total alignedWithTotal mod effectiveLimit alignedWithTotal =
    effectiveOffset alignedWithTotal mod effectiveLimit alignedWithTotal /\
  exists (links : Links) (o : Z),
    GeneratePagination alignedWithTotal =
      (Returns (Some links), normalized alignedWithTotal) /\
    links !! KeyLastPage =
      Some (rewriteURL (workingURL alignedWithTotal)
              (effectiveLimit alignedWithTotal) o) /\
    o = Total alignedWithTotal.
Proof.
  assert (Total alignedWithTotal mod effectiveLimit alignedWithTotal =
          effectiveOffset alignedWithTotal mod effectiveLimit alignedWithTotal)
    as Hsame by (vm_compute; reflexivity).
  split; [exact Hsame|].
  assert (Limit alignedWithTotal <= Total alignedWithTotal) as H1
    by (vm_compute; discriminate).
  assert (0 <= Total alignedWithTotal) as H2 by (vm_compute; discriminate).
  assert (1 <= effectiveLimit alignedWithTotal) as H3 by (vm_compute; discriminate).
  assert (0 <= effectiveOffset alignedWithTotal) as H4 by (vm_compute; discriminate).
  assert (Total alignedWithTotal + effectiveLimit alignedWithTotal <= Int64.max_int)
    as H5 by (vm_compute; discriminate).
  assert (Int64.add (effectiveOffset alignedWithTotal)
            (effectiveLimit alignedWithTotal) < Total alignedWithTotal) as H6
    by (vm_compute; reflexivity).
  pose proof (last_link_at_total alignedWithTotal H1 H2 H3 H4 H5 H6) as Hw.
  cbv zeta in Hw. destruct Hw as (links & o & Hgp & Hlast & Hiff).
  exists links, o. split; [exact Hgp|]. split; [exact Hlast|].
  apply Hiff. split; [exact Hsame | vm_compute; discriminate].
Defined.

(** X8: a run of 20 digits is read as the largest int64. *)
Lemma X8_witness :
  getPageParam "offset" "/?page[offset]=99999999999999999999" = Int64.max_int /\
  0 <= getPageParam "offset" "/?page[offset]=99999999999999999999" <= Int64.max_int.
Proof.
  split; [vm_compute; reflexivity|].
  apply (getPageParam_range "offset" "/?page[offset]=99999999999999999999").
  vm_compute; reflexivity.
Defined.

(** X9: "page[offset]=25" appended to "/" is read back as 25. *)
Lemma X9_witness :
  getPageParam "offset"
    (URL (appendToURL noParams (("page[" +:+ "offset" +:+ "]=") +:+ FormatInt 25)))
  = 25.
Proof.
  apply (appended_parameter_reads_back noParams "offset" 25).
  - split; vm_compute; discriminate.
  - vm_compute; reflexivity.
  - vm_compute; reflexivity.
Defined.

(** X10: no page[limit]= in the URL, nothing to replace. *)
Lemma X10_witness :
  Contains "/?param=owt" ("page[limit]" +:+ "=") = false /\
  replaceParam "/?param=owt" "page[limit]" "5" = "/?param=owt".
Proof.
  assert (Contains "/?param=owt" ("page[limit]" +:+ "=") = false) as Hno
    by (vm_compute; reflexivity).
  split; [exact Hno|].
  apply (replaceParam_absent "/?param=owt" "page[limit]" "5");
    [left; reflexivity | exact Hno].
Defined.

(** X11: rewriting the limit to 7 and then to 9 is rewriting it to 9. *)
Lemma X11_witness :
  replaceParam (replaceParam "/?page[limit]=1&a=2" "page[limit]" "7")
    "page[limit]" "9" =
  replaceParam "/?page[limit]=1&a=2" "page[limit]" "9".
Proof.
  apply (replaceParam_override "/?page[limit]=1&a=2" "page[limit]" "7" "9").
  - left; reflexivity.
  - discriminate.
  - vm_compute; reflexivity.
  - vm_compute; reflexivity.
Defined.

(** X12: the offset 111 rewritten to 211 and read again. *)
Lemma X12_witness :
  0 <= 211 <= Int64.max_int /\
  (getPageParam "offset"
     (replaceParam (URL midRange) "page[offset]" (FormatInt 211)) = 211 \/
   getPageParam "offset"
     (replaceParam (URL midRange) "page[offset]" (FormatInt 211)) = 0 /\
   replaceParam (URL midRange) "page[offset]" (FormatInt 211) = URL midRange).
Proof.
  assert (0 <= 211 <= Int64.max_int) as Hn by (split; vm_compute; discriminate).
  split; [exact Hn|].
  apply (replaceParam_offset_reads_back (URL midRange) 211 Hn).
Defined.

(** X13 at the two parameter names of the file; a name with an operator that
    is not in the class of [regexSafe] is left as it is and is not a literal
    pattern. *)
Lemma X13_witness :
  literalText (regexSafe "page[limit]") = Some "page[limit]" /\
  literalText (regexSafe "page[offset]") = Some "page[offset]" /\
  regexSafe "a+b" = "a+b" /\
  literalText (regexSafe "a+b") = None.
Proof.
  split; [|split; [|split; vm_compute; reflexivity]].
  - apply (regexSafe_literal "page[limit]"); vm_compute; reflexivity.
  - apply (regexSafe_literal "page[offset]"); vm_compute; reflexivity.
Defined.

(** X14: of "[]" only the closing bracket is escaped. *)
Lemma X14_witness :
  regexSafe ("a" +:+ String "[" (String "]" "b")) =
  regexSafe ("a" +:+ String "]" "b").
Proof.
  apply (regexSafe_keeps_last_of_run "a" "b" "[" "]"); vm_compute; reflexivity.
Defined.

(** X15 at a links object with a string and a value of another type. *)
Lemma X15_witness :
  validate (map_to_list ({[ "self" := MString "/posts/1" ]}
                          : gmap string (member unit nat))) = None /\
  forall entries,
    rangeOrder ({[ "self" := MString "/posts/1"; "next" := MOther 7%nat ]}
                 : gmap string (member unit nat)) entries ->
    validate entries = Some (memberError "next").
Proof.
  split.
  - apply (proj1 (validate_any_order
                    ({[ "self" := MString "/posts/1" ]}
                       : gmap string (member unit nat)) _
                    (reflexivity _))).
    intros k v Hkv.
    apply lookup_singleton_Some in Hkv as [_ <-]. reflexivity.
  - intros entries Horder.
    destruct (validate_any_order _ entries Horder) as [Hnone Hsome].
    destruct (validate entries) as [err|] eqn:E.
    + destruct (Hsome err eq_refl) as (k & v & Hkv & Hbad & ->).
      apply lookup_insert_Some in Hkv as [[_ <-] | [_ Hkv]]; [discriminate|].
      apply lookup_singleton_Some in Hkv as [<- _]. reflexivity.
    + pose proof (proj1 Hnone eq_refl "next" (MOther 7%nat)) as Hok.
      rewrite lookup_insert_ne, lookup_singleton_eq in Hok by discriminate.
      specialize (Hok eq_refl). discriminate.
Defined.

(** X16 at an empty payload and the mid-range request. *)
Lemma X16_witness :
  exists (payload' : ManyPayload unit unit unit) (p' : OffsetPagination),
    ManyAddPagination (mkManyPayload [] [] None None) midRange =
      (Returns payload', p') /\
    ManyLinks payload' <> None /\
    ManyAddPagination payload' p' = (Returns payload', p').
Proof.
  set (payload := mkManyPayload [] [] None None : ManyPayload unit unit unit).
  destruct (ManyAddPagination payload midRange) as [[payload'|] p'] eqn:E.
  - exists payload', p'. split; [reflexivity|].
    destruct (ManyAddPagination_offset unit unit unit payload payload' midRange p' E)
      as (_ & _ & _ & Hnil & _ & Hagain).
    split; [|exact Hagain].
    intros Hnone. apply Hnil in Hnone. vm_compute in Hnone. discriminate.
  - exfalso. vm_compute in E. discriminate.
Defined.

(** X17 at a URL with one other parameter: both pagination parameters are
    appended as segments of their own. *)
Lemma X17_witness :
  split_amp (workingURL (mkOffsetPagination "/?param=owt" 100 334)) =
    ["/?param=owt"; "page[limit]=100"; "page[offset]=0"] /\
  hasParam "page[offset]=" (workingURL (mkOffsetPagination "/?param=owt" 100 334)) = true.
Proof.
  assert (Contains (URL (mkOffsetPagination "/?param=owt" 100 334)) "?" = true) as Hq
    by (vm_compute; reflexivity).
  destruct (appended_parameters_are_segments _ Hq) as (Hseg & _ & Hoff & _).
  split; [rewrite Hseg; vm_compute; reflexivity|].
  apply Hoff. right. vm_compute. reflexivity.
Defined.
